(** * COWNotifier: the article pipeline of [newsparser.py]

    A shallow embedding of the plus-one classifier, the date formatter, the
    [articleParser] handlers and the [newsArticle] methods, followed by the
    properties established about them.

    Conventions.  A Python [str] is a [string] (one [ascii] per character);
    Python integers and indices are [Z]; a Python [dict] is a [gmap]; a method
    of [newsArticle] is a function from the state of the world before the call
    to an outcome (a returned value or a raised exception) and the state
    after it. *)

From Stdlib Require Import ZArith Lia Ascii.
From Stdlib Require String DecimalString.
From stdpp Require Import gmap strings list.

Local Open Scope Z_scope.

(* ===================================================================== *)
(** * Python values, exceptions and string primitives *)
(* ===================================================================== *)

Module Py.

(** The exceptions the pipeline can meet.  [OtherError] stands for any
    further subclass of [Exception] (a collaborator may raise anything);
    [NonError] for the classes outside [Exception] ([SystemExit],
    [KeyboardInterrupt], ...), which [except Exception] lets through. *)
Inductive exn : Type :=
| TypeError
| ValueError
| OverflowError
| OtherError (name : string)
| NonError (name : string).

Definition is_Exception (e : exn) : bool :=
  match e with
  | NonError _ => false
  | _ => true
  end.

Inductive outcome (A : Type) : Type :=
| Return (a : A)
| Raise (e : exn).
Arguments Return {A} a.
Arguments Raise {A} e.

#[global] Instance outcome_ret : MRet outcome := @Return.
#[global] Instance outcome_bind : MBind outcome := fun A B k x =>
  match x with
  | Return a => k a
  | Raise e => Raise e
  end.

(** The values a caller may pass where the code expects a number. *)
Inductive value : Type :=
| PyInt (z : Z)
| PyStr (s : string)
| PyList (items : list Z).

(** [len(s)] *)
Definition len (s : string) : Z := Z.of_nat (String.length s).

(** [s.startswith(p)] *)
Definition startswith (s p : string) : bool := String.prefix p s.

(** [s.find(sub)]: the lowest index at which [sub] occurs, [-1] if none. *)
Fixpoint find_from (i : Z) (sub s : string) {struct s} : Z :=
  if String.prefix sub s then i
  else match s with
       | EmptyString => -1
       | String _ s' => find_from (i + 1) sub s'
       end.

Definition find (s sub : string) : Z := find_from 0 sub s.

(** Slice bounds: a negative bound counts from the end, and every bound
    is clipped to [0 .. len]. *)
Definition clamp (n i : Z) : Z :=
  if i <? 0 then Z.max 0 (i + n) else Z.min i n.

(** [s[lo:hi]] *)
Definition slice (s : string) (lo hi : Z) : string :=
  let a := clamp (len s) lo in
  let b := clamp (len s) hi in
  String.substring (Z.to_nat a) (Z.to_nat (b - a)) s.

(** [s[lo:]] *)
Definition slice_from (s : string) (lo : Z) : string :=
  slice s lo (len s).

(** [s.split(sep)[0]] *)
Definition split_first (s sep : string) : string :=
  let i := find s sep in
  if i <? 0 then s else slice s 0 i.

(** ["".join(l)] *)
Definition join (l : list string) : string :=
  foldr String.append "" l.

(** [str(b)] for a [bool], as an f-string renders it. *)
Definition str_bool (b : bool) : string := if b then "True" else "False".

(** The double-quote character, and a string put between two of them. *)
Definition dquote : ascii := "034"%char.
Definition quoted (s : string) : string :=
  String dquote (s +:+ String dquote "").

(** [html.escape(s)] with its default [quote=True]. *)
Definition escape_char (c : ascii) : string :=
  if Ascii.eqb c "&" then "&amp;"
  else if Ascii.eqb c "<" then "&lt;"
  else if Ascii.eqb c ">" then "&gt;"
  else if Ascii.eqb c dquote then "&quot;"
  else if Ascii.eqb c "'" then "&#x27;"
  else String c "".

Fixpoint escape (s : string) : string :=
  match s with
  | EmptyString => ""
  | String c s' => escape_char c +:+ escape s'
  end.

End Py.

Import Py.

(* ===================================================================== *)
(** * [isPlusOne] *)
(* ===================================================================== *)

Definition isPlusOne (msg : string) : bool :=
  startswith msg "+1" && (len msg <? 10).

(* ===================================================================== *)
(** * [datetime]: the part of the library [getHumanReadableDate] uses *)
(* ===================================================================== *)

Module DateTime.

(** A naive [datetime.datetime] (no microseconds: the format has none). *)
Record datetime : Type := mkDatetime {
  year : Z; month : Z; day : Z; hour : Z; minute : Z; second : Z
}.

Definition MAXORDINAL : Z := 3652059.

Definition is_leap (y : Z) : bool :=
  (y mod 4 =? 0) && (negb (y mod 100 =? 0) || (y mod 400 =? 0)).

Definition days_in_month (y m : Z) : Z :=
  if m =? 2 then (if is_leap y then 29 else 28)
  else if (m =? 4) || (m =? 6) || (m =? 9) || (m =? 11) then 30
  else 31.

Definition days_before_month (y m : Z) : Z :=
  nth (Z.to_nat m) [0; 0; 31; 59; 90; 120; 151; 181; 212; 243; 273; 304; 334] 0
  + (if (2 <? m) && is_leap y then 1 else 0).

Definition days_before_year (y : Z) : Z :=
  let y1 := y - 1 in y1 * 365 + y1 / 4 - y1 / 100 + y1 / 400.

(** [date.toordinal]: 1 January of year 1 is day 1. *)
Definition ymd2ord (y m d : Z) : Z :=
  days_before_year y + days_before_month y m + d.

(** [date.fromordinal], after the library's [_ord2ymd]. *)
Definition ord2ymd (n0 : Z) : Z * Z * Z :=
  let n := n0 - 1 in
  let n400 := n / 146097 in let n := n mod 146097 in
  let n100 := n / 36524 in let n := n mod 36524 in
  let n4 := n / 1461 in let n := n mod 1461 in
  let n1 := n / 365 in let n := n mod 365 in
  let y := n400 * 400 + 1 + n100 * 100 + n4 * 4 + n1 in
  if (n1 =? 4) || (n100 =? 4) then (y - 1, 12, 31)
  else
    let m := Z.shiftr (n + 50) 5 in
    let preceding := days_before_month y m in
    if n <? preceding
    then (y, m - 1, n - (preceding - days_in_month y (m - 1)) + 1)
    else (y, m, n - preceding + 1).

(** ** [strptime(s, "%Y-%m-%dT%H:%M:%S")] *)

Definition digit (c : ascii) : option Z :=
  let n := Z.of_nat (nat_of_ascii c) in
  if (48 <=? n) && (n <=? 57) then Some (n - 48) else None.

(** What may follow a field: a literal of the format (the library matches
    the format's letters without regard to case) or the end of the text. *)
Inductive follow : Type :=
| Lit (accept : ascii -> bool)
| End.

Definition followed (f : follow) (s : string) : option string :=
  match f, s with
  | Lit accept, String c r => if accept c then Some r else None
  | End, EmptyString => Some EmptyString
  | _, _ => None
  end.

Definition is_char (c : ascii) : ascii -> bool := Ascii.eqb c.
Definition is_T (c : ascii) : bool := Ascii.eqb c "T" || Ascii.eqb c "t".

(** [%Y]: exactly four digits. *)
Definition field_Y (f : follow) (s : string) : option (Z * string) :=
  match s with
  | String a (String b (String c (String d r))) =>
      match digit a, digit b, digit c, digit d with
      | Some a, Some b, Some c, Some d =>
          r' ← followed f r; Some (1000 * a + 100 * b + 10 * c + d, r')
      | _, _, _, _ => None
      end
  | _ => None
  end.

(** A field of two digits accepted by [two], or else of one digit accepted
    by [one]; [blank] also admits a space before the single digit. *)
Definition field_2or1 (two : Z -> Z -> bool) (one : Z -> bool) (blank : bool)
    (f : follow) (s : string) : option (Z * string) :=
  let single (s : string) :=
    match s with
    | String a r =>
        match digit a with
        | Some a => if one a then r' ← followed f r; Some (a, r') else None
        | None => None
        end
    | _ => None
    end in
  let double :=
    match s with
    | String a (String b r) =>
        match digit a, digit b with
        | Some a, Some b =>
            if two a b then r' ← followed f r; Some (10 * a + b, r') else None
        | _, _ => None
        end
    | _ => None
    end in
  match double with
  | Some v => Some v
  | None =>
      match single s with
      | Some v => Some v
      | None =>
          match s with
          | String sp r => if blank && Ascii.eqb sp " " then single r else None
          | _ => None
          end
      end
  end.

(** [%m]: 1[0-2] | 0[1-9] | [1-9] *)
Definition field_m :=
  field_2or1 (fun a b => ((a =? 1) && (b <=? 2)) || ((a =? 0) && (1 <=? b)))
             (fun a => 1 <=? a) false.
(** [%d]: 3[01] | [12]\d | 0[1-9] | [1-9] | blank [1-9] *)
Definition field_d :=
  field_2or1 (fun a b => ((a =? 3) && (b <=? 1)) || (a =? 1) || (a =? 2)
                         || ((a =? 0) && (1 <=? b)))
             (fun a => 1 <=? a) true.
(** [%H]: 2[0-3] | [0-1]\d | \d *)
Definition field_H :=
  field_2or1 (fun a b => ((a =? 2) && (b <=? 3)) || (a <=? 1))
             (fun _ => true) false.
(** [%M]: [0-5]\d | \d *)
Definition field_M :=
  field_2or1 (fun a b => a <=? 5) (fun _ => true) false.
(** [%S]: 6[0-1] | [0-5]\d | \d *)
Definition field_S :=
  field_2or1 (fun a b => ((a =? 6) && (b <=? 1)) || (a <=? 5))
             (fun _ => true) false.

Definition strptime (s : string) : outcome datetime :=
  let fields :=
    '(yr, s) ← field_Y (Lit (is_char "-")) s;
    '(mo, s) ← field_m (Lit (is_char "-")) s;
    '(dy, s) ← field_d (Lit is_T) s;
    '(hh, s) ← field_H (Lit (is_char ":")) s;
    '(mi, s) ← field_M (Lit (is_char ":")) s;
    '(ss, _) ← field_S End s;
    Some (mkDatetime yr mo dy hh mi ss) in
  match fields with
  | Some dt =>
      (* the constructor's range checks *)
      if (1 <=? year dt) && (day dt <=? days_in_month (year dt) (month dt))
         && (second dt <=? 59)
      then Return dt else Raise ValueError
  | None => Raise ValueError
  end.

(** [timedelta(hours=v)], as a number of seconds. *)
Definition timedelta_hours (v : value) : outcome Z :=
  match v with
  | PyInt h =>
      if Z.abs (h / 24) <=? 999999999 then Return (h * 3600)
      else Raise OverflowError
  | _ => Raise TypeError
  end.

(** [datetime + timedelta] *)
Definition add (dt : datetime) (delta : Z) : outcome datetime :=
  let t := ymd2ord (year dt) (month dt) (day dt) * 86400
           + hour dt * 3600 + minute dt * 60 + second dt + delta in
  let days := t / 86400 in
  let rem := t mod 86400 in
  if (0 <? days) && (days <=? MAXORDINAL) then
    let '(y, m, d) := ord2ymd days in
    Return (mkDatetime y m d (rem / 3600) (rem mod 3600 / 60) (rem mod 60))
  else Raise OverflowError.

(** ** [strftime("%d %b %Y, %H:%M:%S")] *)

Definition digit_char (d : Z) : ascii := ascii_of_nat (Z.to_nat (48 + d mod 10)).

Definition dec2 (n : Z) : string :=
  String (digit_char (n / 10)) (String (digit_char n) "").

(** The year is written with four digits, as the library documents [%Y]. *)
Definition dec4 (n : Z) : string := dec2 (n / 100) +:+ dec2 (n mod 100).

(** [%b] in the C locale. *)
Definition month_abbr (m : Z) : string :=
  nth (Z.to_nat m)
    [""; "Jan"; "Feb"; "Mar"; "Apr"; "May"; "Jun";
     "Jul"; "Aug"; "Sep"; "Oct"; "Nov"; "Dec"] "".

Definition strftime (dt : datetime) : string :=
  dec2 (day dt) +:+ " " +:+ month_abbr (month dt) +:+ " " +:+ dec4 (year dt)
  +:+ ", " +:+ dec2 (hour dt) +:+ ":" +:+ dec2 (minute dt) +:+ ":"
  +:+ dec2 (second dt).

End DateTime.

(* ===================================================================== *)
(** * [getHumanReadableDate] *)
(* ===================================================================== *)

Definition getHumanReadableDate (date : string * value) : outcome string :=
  let '(rawDate, localTimezone) := date in
  machineDate ← (parsed ← DateTime.strptime (split_first rawDate ".");
                 delta ← DateTime.timedelta_hours localTimezone;
                 DateTime.add parsed delta);
  Return (DateTime.strftime machineDate).

(* ===================================================================== *)
(** * [articleParser] *)
(* ===================================================================== *)

Module articleParser.

(** An attribute as [HTMLParser] hands it over: a name and its value,
    [None] for an attribute written without one. *)
Definition attr : Type := string * option string.

(** The events [HTMLParser.feed] dispatches, in document order. *)
Inductive token : Type :=
| StartTag (tag : string) (attrs : list attr)
| EndTag (tag : string)
| StartEndTag (tag : string) (attrs : list attr)
| Data (data : string)
| EntityRef (name : string)
| CharRef (name : string)
| Other.                      (* comment, declaration, processing instruction *)

(** Tags supported by Telegram *)
Definition supported_tags : list string :=
  ["strike"; "i"; "strong"; "b"; "pre"; "ins"; "a"; "code"; "del"; "s"; "em";
   "u"].

(** Useful attributes to look for *)
Definition useful_attrs : list string := ["href"; "title"; "class"].

(** html_tag -> telegram_tag mapping for formatting purposes *)
Definition tag_mapping : gmap string string :=
  {[ "h1" := "b"; "h2" := "b"; "h3" := "b"; "blockquote" := "i" ]}.

(** [{at[0]: at[1] for at in attrs if at[0] in useful_attrs}]: of two
    attributes of one name the later one stays. *)
Definition tag_attrs_of (attrs : list attr) : gmap string (option string) :=
  foldl (fun d (a : attr) =>
           if decide (a.1 ∈ useful_attrs) then <[a.1 := a.2]> d else d)
        ∅ attrs.

(** [d.get(key, dflt)] on the attribute dictionary: the value may be
    Python's [None]. *)
Definition get_attr (d : gmap string (option string)) (key dflt : string)
  : option string :=
  default (Some dflt) (d !! key).

(** The text of the [href] attribute, its value between quotes:
    concatenating [None] to a [str] is a [TypeError]. *)
Definition href_str (v : option string) : outcome string :=
  match v with
  | Some v => Return (" href=" +:+ quoted v)
  | None => Raise TypeError
  end.

Section Handlers.

(** The table of [emoji_codepoints], from short name to glyph. *)
Variable emoji : gmap string string.

(** [emoji.get(key, '')]; [None] is no key of the table. *)
Definition emoji_get (key : option string) : string :=
  default "" (k ← key; emoji !! k).

Definition handle_entityref (fed : list string) (name : string)
  : list string :=
  fed ++ ["&" +:+ name +:+ ";"].

Definition handle_starttag (fed : list string) (tag : string)
    (attrs : list attr) : outcome (list string) :=
  let tag_attrs := tag_attrs_of attrs in
  let ptag := Some tag in
  let ptag := if decide (tag ∈ supported_tags) then ptag
              else tag_mapping !! tag in
  fed ← match ptag with
        | Some ptag =>
            attr_str ← (if decide (tag = "a")
                        then href_str (get_attr tag_attrs "href" "")
                        else Return "");
            Return (fed ++ ["<" +:+ (ptag +:+ attr_str) +:+ ">"])
        | None => Return fed
        end;
  if decide (tag = "img" ∧ get_attr tag_attrs "class" "" = Some "emoji")
  then Return (fed ++ [emoji_get (get_attr tag_attrs "title" ":cow:")])
  else Return fed.

Definition handle_data (fed : list string) (data : string) : list string :=
  fed ++ [data].

Definition handle_endtag (fed : list string) (tag : string) : list string :=
  let tag := if decide (tag ∈ supported_tags) then Some tag
             else tag_mapping !! tag in
  match tag with
  | Some tag => fed ++ ["</" +:+ tag +:+ ">"]
  | None => fed
  end.

Definition get_data (fed : list string) : string := join fed.

(** One event of [feed].  The handlers the class does not override are
    the base class's: [handle_startendtag] calls the start and the end
    handler, the others do nothing. *)
Definition dispatch (fed : list string) (t : token)
  : outcome (list string) :=
  match t with
  | StartTag tag attrs => handle_starttag fed tag attrs
  | EndTag tag => Return (handle_endtag fed tag)
  | StartEndTag tag attrs =>
      fed ← handle_starttag fed tag attrs; Return (handle_endtag fed tag)
  | Data data => Return (handle_data fed data)
  | EntityRef name => Return (handle_entityref fed name)
  | CharRef _ | Other => Return fed
  end.

Fixpoint feed_tokens (fed : list string) (ts : list token)
  : outcome (list string) :=
  match ts with
  | [] => Return fed
  | t :: ts => fed ← dispatch fed t; feed_tokens fed ts
  end.

End Handlers.

End articleParser.

(* ===================================================================== *)
(** * The regular expression of [parseLinks] *)
(* ===================================================================== *)

Module Re.

(** A match object: [m.span()] and [m.span(1)]. *)
Record re_match : Type := mkMatch {
  m_start : Z; m_end : Z; g1_start : Z; g1_end : Z
}.

(** The characters of [s] before the first [c], counted, and what comes
    after that [c]; [None] when [s] holds no [c]. *)
Fixpoint span_until (c : ascii) (s : string) : option (nat * string) :=
  match s with
  | EmptyString => None
  | String x r =>
      if Ascii.eqb x c then Some (O, r)
      else '(n, r') ← span_until c r; Some (S n, r')
  end.

(** Does the pattern of [parseLinks] match at the head of [s]?  The
    pattern reads: an exclamation mark, an opening bracket, group 1 of
    any characters but a closing bracket, a closing bracket, an opening
    parenthesis, group 2 of any characters but a closing parenthesis, a
    closing parenthesis.  The result is the length of group 1 and of the
    whole match.  Each group is followed by the one character it
    excludes, so the match is the only one the engine can find there. *)
Definition match_here (s : string) : option (nat * nat) :=
  match s with
  | String c1 (String c2 r) =>
      if Ascii.eqb c1 "!" && Ascii.eqb c2 "[" then
        '(n1, r1) ← span_until "]" r;
        match r1 with
        | String c3 r2 =>
            if Ascii.eqb c3 "(" then
              '(n2, _) ← span_until ")" r2;
              Some (n1, (n1 + n2 + 5)%nat)
            else None
        | EmptyString => None
        end
      else None
  | _ => None
  end.

(** [pattern.finditer(msg)]: the matches from left to right, none
    overlapping another; [skip] counts the characters still inside
    the match found last, [pos] is the index of the head of [s]. *)
Fixpoint finditer_from (skip : nat) (pos : Z) (s : string) : list re_match :=
  match s with
  | EmptyString => []
  | String _ s' =>
      match skip with
      | S k => finditer_from k (pos + 1) s'
      | O =>
          match match_here s with
          | Some (n1, n) =>
              mkMatch pos (pos + Z.of_nat n) (pos + 2) (pos + 2 + Z.of_nat n1)
              :: finditer_from (n - 1) (pos + 1) s'
          | None => finditer_from O (pos + 1) s'
          end
      end
  end.

Definition finditer (msg : string) : list re_match := finditer_from O 0 msg.

End Re.

(* ===================================================================== *)
(** * [newsArticle] *)
(* ===================================================================== *)

Module newsArticle.

Import articleParser Re.

Definition CRLF : string := String "013" (String "010" "").
Definition LF : string := String "010" "".

(** [str(n)] for an integer. *)
Definition str_int (n : Z) : string :=
  DecimalString.NilZero.string_of_int (Z.to_int n).

Section Article.

(** The collaborators: the emoji table, the tokenizer of [HTMLParser]
    (the events of a text and, when it gives up on the text, the
    exception it raises after them), and the mention manager with its
    own state. *)
Variable emoji : gmap string string.
Variable lex : string -> list token * option exn.
Variable MM : Type.
Variable parseMentions : MM -> string -> string -> outcome unit * MM.

Record t : Type := mkArticle {
  author_username : string;
  author_displayname : string;
  topic : string;
  subject : string;
  date : string;
  raw_msg : string;
  raw_html : string;
  mention_manager : MM;
  broken : bool;
  content : option string;
  is_plus_one : option bool
}.

Definition set_raw_html (v : string) (a : t) : t :=
  mkArticle (author_username a) (author_displayname a) (topic a) (subject a)
    (date a) (raw_msg a) v (mention_manager a) (broken a) (content a)
    (is_plus_one a).
Definition set_raw_msg (v : string) (a : t) : t :=
  mkArticle (author_username a) (author_displayname a) (topic a) (subject a)
    (date a) v (raw_html a) (mention_manager a) (broken a) (content a)
    (is_plus_one a).
Definition set_mention_manager (v : MM) (a : t) : t :=
  mkArticle (author_username a) (author_displayname a) (topic a) (subject a)
    (date a) (raw_msg a) (raw_html a) v (broken a) (content a)
    (is_plus_one a).
Definition set_broken (v : bool) (a : t) : t :=
  mkArticle (author_username a) (author_displayname a) (topic a) (subject a)
    (date a) (raw_msg a) (raw_html a) (mention_manager a) v (content a)
    (is_plus_one a).
Definition set_content (v : option string) (a : t) : t :=
  mkArticle (author_username a) (author_displayname a) (topic a) (subject a)
    (date a) (raw_msg a) (raw_html a) (mention_manager a) (broken a) v
    (is_plus_one a).
Definition set_is_plus_one (v : option bool) (a : t) : t :=
  mkArticle (author_username a) (author_displayname a) (topic a) (subject a)
    (date a) (raw_msg a) (raw_html a) (mention_manager a) (broken a)
    (content a) v.

(** The world a method runs in: the article and what has been printed
    (the exceptions reported, oldest first). *)
Record world : Type := mkWorld { self : t; console : list exn }.

(** A change made to the article from outside, between two calls. *)
Definition mutate (f : t -> t) (w : world) : world :=
  mkWorld (f (self w)) (console w).

(** A method: an outcome and the world after it.  An exception leaves
    the world as the method had changed it so far. *)
Definition M (A : Type) : Type := world -> outcome A * world.

Definition ret {A} (a : A) : M A := fun w => (Return a, w).
Definition bind {A B} (m : M A) (k : A -> M B) : M B := fun w =>
  match m w with
  | (Return a, w') => k a w'
  | (Raise e, w') => (Raise e, w')
  end.
Definition get : M t := fun w => (Return (self w), w).
Definition modify (f : t -> t) : M unit := fun w =>
  (Return tt, mutate f w).
Definition print (e : exn) : M unit := fun w =>
  (Return tt, mkWorld (self w) (console w ++ [e])).
Definition lift {A} (x : outcome A) : M A := fun w => (x, w).

(** [try: body  except Exception as e: handler e] *)
Definition try_except {A} (body : M A) (handler : exn -> M A) : M A :=
  fun w =>
    match body w with
    | (Raise e, w') =>
        if is_Exception e then handler e w' else (Raise e, w')
    | r => r
    end.

Notation "x <- m ;; k" := (bind m (fun x => k))
  (at level 100, m at next level, right associativity).
Notation "m ;;; k" := (bind m (fun _ => k))
  (at level 100, right associativity).

(** [__init__] *)
Definition init (author : string * string) (topic subject : string)
    (date : string * value) (raw_msg raw_html : string)
    (mention_manager : MM) : outcome t :=
  date ← getHumanReadableDate date;
  Return (mkArticle author.1 author.2 topic subject date raw_msg raw_html
            mention_manager false None None).

Definition isPlusOne : M bool :=
  a <- get;;
  match is_plus_one a with
  | None =>
      let b := isPlusOne (raw_msg a) in
      modify (set_is_plus_one (Some b));;; ret b
  | Some b => ret b
  end.

Definition makeHeader : M string :=
  a <- get;;
  plus_one <- isPlusOne;;
  let hdr :=
    "From: " +:+ author_username a +:+ "(" +:+ author_displayname a +:+ ")"
    +:+ CRLF +:+ "Newsgroup: " +:+ topic a +:+ CRLF
    +:+ "Subject: " +:+ subject a +:+ CRLF
    +:+ "Date: " +:+ date a +:+ CRLF
    +:+ "is_plus_one: " +:+ str_bool plus_one in
  ret ("<code>" +:+ escape hdr +:+ "</code>" +:+ LF +:+ LF).

Definition img_tag : string := "<img src=" +:+ String dquote "".

(** One turn of the loop of [parseLinks]; [acc] holds the locals
    [parsed], [link_counter] and [last_pos]. *)
Definition parseLinks_iter (msg : string) (acc : string * Z * Z)
    (m : re_match) : M (string * Z * Z) :=
  let '(parsed, link_counter, last_pos) := acc in
  (* Find link name *)
  let link_name := slice msg (g1_start m) (g1_end m) in
  let link_name := if decide (link_name = "")
                   then "Link " +:+ str_int link_counter else link_name in
  (* Find first img link in html *)
  a <- get;;
  let html_link_start := find (raw_html a) img_tag + len img_tag in
  let html_link_len :=
    find (slice_from (raw_html a) html_link_start) (String dquote "") in
  let html_link :=
    slice (raw_html a) html_link_start (html_link_start + html_link_len) in
  (* Discard used html *)
  modify (set_raw_html
            (slice_from (raw_html a) (html_link_start + html_link_len)));;;
  (* Replace link in markdown *)
  let parsed := parsed +:+ slice msg last_pos (m_start m)
                +:+ "[" +:+ link_name +:+ "](" +:+ html_link +:+ ")" in
  ret (parsed, link_counter + 1, m_end m).

Fixpoint parseLinks_loop (msg : string) (acc : string * Z * Z)
    (ms : list re_match) : M (string * Z * Z) :=
  match ms with
  | [] => ret acc
  | m :: ms => acc <- parseLinks_iter msg acc m;; parseLinks_loop msg acc ms
  end.

Definition parseLinks (msg : string) : M string :=
  acc <- parseLinks_loop msg ("", 1, 0) (finditer msg);;
  let '(parsed, _, last_pos) := acc in
  ret (parsed +:+ slice_from msg last_pos).

(** [p = articleParser(); p.feed(html); p.get_data()] *)
Definition transcode (html : string) : outcome string :=
  let '(tokens, failure) := lex html in
  fed ← feed_tokens emoji [] tokens;
  match failure with
  | Some e => Raise e
  | None => Return (get_data fed)
  end.

(** [self.mention_manager.parseMentions(content, self.topic)] *)
Definition call_parseMentions (text : string) : M unit := fun w =>
  let '(r, mm) := parseMentions (mention_manager (self w)) text
                    (topic (self w)) in
  (r, mkWorld (set_mention_manager mm (self w)) (console w)).

(** The body of the [try] of [parseMessage] and its handler. *)
Definition parseMessage_try : M unit :=
  hdr <- makeHeader;;
  a <- get;;
  content <- lift (transcode (raw_html a));;
  call_parseMentions content;;;
  modify (set_content (Some (hdr +:+ content))).

Definition parseMessage_except (e : exn) : M unit :=
  print e;;; modify (set_broken true).

Definition parseMessage : M unit :=
  a <- get;;
  if broken a then ret tt
  else try_except parseMessage_try parseMessage_except.

Definition getAsHtml : M (option string) :=
  a <- get;;
  (if content a is None then parseMessage else ret tt);;;
  a <- get;;
  ret (content a).

End Article.

End newsArticle.

(* ===================================================================== *)
(** * The specification's side: queues, documents, balance *)
(* ===================================================================== *)

Module Spec.

Import articleParser Re.

(** The value an element's start tag gives the attribute [name]: where a
    name is written twice, the parser's dictionary keeps the later one. *)
Definition attribute (name : string) (attrs : list attr)
  : option (option string) :=
  snd <$> last (filter (fun a : attr => a.1 = name) attrs).

(** ** The link correlator, as the specification words it *)

(** What is left of [s] after the prefix [p]. *)
Fixpoint strip_prefix (p s : string) : option string :=
  match p, s with
  | EmptyString, _ => Some s
  | String a p', String b s' =>
      if Ascii.eqb a b then strip_prefix p' s' else None
  | String _ _, EmptyString => None
  end.

(** The ordered queue of image-source URLs of an HTML body: each
    occurrence of the image tag with its source, read up to the closing
    quote, the search going on from that quote.  A source with no
    closing quote ends the queue (nothing after it can be closed). *)
Fixpoint image_sources_from (skip : nat) (html : string) : list string :=
  match html with
  | EmptyString => []
  | String _ html' =>
      match skip with
      | S k => image_sources_from k html'
      | O =>
          match strip_prefix newsArticle.img_tag html with
          | Some r =>
              match span_until dquote r with
              | Some (n, _) =>
                  String.substring 0 n r :: image_sources_from (9 + n) html'
              | None => []
              end
          | None => image_sources_from O html'
          end
      end
  end.

Definition image_sources (html : string) : list string :=
  image_sources_from O html.

(** The display name of the [i]-th placeholder. *)
Definition display_name (i : Z) (alt : string) : string :=
  if decide (alt = "") then "Link " +:+ newsArticle.str_int i else alt.

(** The markdown text with its placeholders rewritten, the [i]-th one
    taking the next URL of the queue; [None] is the underflow, a
    placeholder met with the queue empty. *)
Fixpoint correlate_from (skip : nat) (i : Z) (urls : list string)
    (md : string) : option string :=
  match md with
  | EmptyString => Some EmptyString
  | String c md' =>
      match skip with
      | S k => correlate_from k i urls md'
      | O =>
          match match_here md with
          | Some (n1, n) =>
              match urls with
              | url :: urls =>
                  rest ← correlate_from (n - 1) (i + 1) urls md';
                  Some ("[" +:+ display_name i (String.substring 2 n1 md)
                        +:+ "](" +:+ url +:+ ")" +:+ rest)
              | [] => None
              end
          | None => String c <$> correlate_from O i urls md'
          end
      end
  end.

Definition correlate (md : string) (urls : list string) : option string :=
  correlate_from O 1 urls md.

(** ** The loop of [parseLinks], taken apart *)

(** [s] without its first [n] characters. *)
Fixpoint sdrop (n : nat) (s : string) : string :=
  match n, s with
  | O, _ => s
  | S n, String _ s' => sdrop n s'
  | S _, EmptyString => EmptyString
  end.

(** The index of the first occurrence of [sub] in [s]. *)
Fixpoint index_of (sub s : string) {struct s} : option nat :=
  if String.prefix sub s then Some O
  else match s with
       | EmptyString => None
       | String _ s' => S <$> index_of sub s'
       end.

(** What one turn of the loop does to the HTML: the link it cuts out and
    the HTML it leaves. *)
Definition pop (html : string) : string * string :=
  let html_link_start := find html newsArticle.img_tag + len newsArticle.img_tag in
  let html_link_len :=
    find (slice_from html html_link_start) (String dquote "") in
  (slice html html_link_start (html_link_start + html_link_len),
   slice_from html (html_link_start + html_link_len)).

(** The links of [n] turns. *)
Fixpoint pops (n : nat) (html : string) : list string :=
  match n with
  | O => []
  | S n => (pop html).1 :: pops n (pop html).2
  end.

(** What the loop does to its locals, given the link of each turn. *)
Fixpoint assemble (msg : string) (acc : string * Z * Z) (ms : list re_match)
    (urls : list string) : string * Z * Z :=
  match ms, urls with
  | m :: ms, url :: urls =>
      let '(parsed, link_counter, last_pos) := acc in
      assemble msg
        (parsed +:+ slice msg last_pos (m_start m)
         +:+ "[" +:+ display_name link_counter
                       (slice msg (g1_start m) (g1_end m))
         +:+ "](" +:+ url +:+ ")",
         link_counter + 1, m_end m) ms urls
  | _, _ => acc
  end.

(** The text returned after the loop. *)
Definition finish (msg : string) (acc : string * Z * Z) : string :=
  let '(parsed, _, last_pos) := acc in parsed +:+ slice_from msg last_pos.

(** ** Documents and the balance of the emitted tags *)



(** The decision on a tag name: an allow-listed name passes through, a
    heading becomes bold, a block quotation italic, and any other element
    is unwrapped ([None]). *)
Definition output_tag (tag : string) : option string :=
  if decide (tag ∈ supported_tags) then Some tag
  else if decide (tag ∈ ["h1"; "h2"; "h3"]) then Some "b"
  else if decide (tag = "blockquote") then Some "i"
  else None.

End Spec.

(* ===================================================================== *)
(** * Fixtures: small collaborators to run the model on *)
(* ===================================================================== *)

Module Fixtures.

Import articleParser newsArticle.

Definition emoji : gmap string string := {[ ":cow:" := "C"; ":smile:" := "S" ]}.

(** A tokenizer that knows two texts. *)
Definition lex (html : string) : list token * option exn :=
  if decide (html = "<a href>x</a>")
  then ([StartTag "a" [("href", None)]; Data "x"; EndTag "a"], None)
  else ([StartTag "h1" []; Data html; EntityRef "amp"; EndTag "h1"], None).

(** A mention manager that counts its calls. *)
Definition parseMentions (calls : nat) (text topic : string)
  : outcome unit * nat :=
  (Return tt, S calls).

Definition article (raw_msg raw_html : string) : newsArticle.t nat :=
  mkArticle nat "cow" "Cow" "news.test" "Hello" "03 Feb 2020, 21:30:00"
    raw_msg raw_html O false None None.

Definition world (raw_msg raw_html : string) : newsArticle.world nat :=
  mkWorld nat (article raw_msg raw_html) [].

Definition img (url : string) : string := img_tag +:+ url +:+ String dquote ">".

End Fixtures.

(* ===================================================================== *)
(** * [newsReader] *)
(* ===================================================================== *)

Module newsReader.

(** A message as [email.message_from_bytes] hands it over, as far as
    [updateTopic] reads it: the value of a header field ([None] when the
    message has no such field) and, in the order of [walk()], the content
    type and the content of each part. *)
Record mime : Type := mkMime {
  header : string -> option string;
  parts : list (string * string)
}.

(** [self.groups]: a dictionary from group name to the number of the last
    article seen, its keys in the order they were first assigned. *)
Definition groups_t : Type := list (string * Z).

(** [groups[topic]]; [None] stands for the [KeyError]. *)
Fixpoint get_item (groups : groups_t) (topic : string) : option Z :=
  match groups with
  | [] => None
  | (t, v) :: groups => if decide (t = topic) then Some v else get_item groups topic
  end.

(** [groups[topic] = v]: a key already there keeps its place. *)
Fixpoint set_item (topic : string) (v : Z) (groups : groups_t) : groups_t :=
  match groups with
  | [] => [(topic, v)]
  | (t, old) :: groups =>
      if decide (t = topic) then (t, v) :: groups
      else (t, old) :: set_item topic v groups
  end.

Definition KeyError : exn := OtherError "KeyError".

(** [t.endswith(suffix)] *)
Definition endswith (t suffix : string) : bool :=
  (String.length suffix <=? String.length t)%nat
  && String.eqb
       (String.substring (String.length t - String.length suffix)
          (String.length suffix) t)
       suffix.

(** [__init__], after the connection is made: [listing] is the answer of
    [conn.list()], each group with what [int(g.last)] evaluates to. *)
Fixpoint init_groups (groups : groups_t) (listing : list (string * outcome Z))
  : outcome groups_t :=
  match listing with
  | [] => Return groups
  | (g, last) :: listing =>
      last ← last; init_groups (set_item g last groups) listing
  end.

Definition init (conn_list : outcome (list (string * outcome Z)))
  : outcome groups_t :=
  res ← conn_list; init_groups [] res.

Definition validTopic (groups : groups_t) (topic : string) : bool :=
  bool_decide (is_Some (get_item groups topic)).

Fixpoint closest (groups : groups_t) (topic : string) : option string :=
  match groups with
  | [] => None
  | (t, _) :: groups => if endswith t topic then Some t else closest groups topic
  end.

Definition headers : list string := ["From"; "Newsgroups"; "Subject"; "Date"].

(** [%s] applied to a header value: a missing field prints as None. *)
Definition str_of (v : option string) : string := default "None" v.

(** The loop over [mime_msg.walk()]: the first part of type text/plain is
    appended and the loop left. *)
Fixpoint walk_plain (msg : string) (ps : list (string * string)) : string :=
  match ps with
  | [] => msg
  | (content_type, body) :: ps =>
      if decide (content_type = "text/plain") then msg +:+ body
      else walk_plain msg ps
  end.

(** The text [updateTopic] makes of one message. *)
Definition message (m : mime) : string :=
  let msg :=
    foldl (fun msg h =>
             msg +:+ (h +:+ ": " +:+ str_of (header m h) +:+ newsArticle.CRLF))
          "" headers in
  walk_plain msg (parts m).

Section Reader.

(** The connection: [conn.group(topic)], of which the first and the last
    article number are read, and [conn.article(n)] with its lines joined
    and parsed. *)
Variable conn_group : string -> outcome (Z * Z).
Variable conn_article : Z -> outcome mime.

(** The [while] loop: [count] is the number of turns left, [last - start + 1]
    when that is positive. *)
Fixpoint fetch_loop (start : Z) (count : nat) (res : list string)
  : outcome (list string) :=
  match count with
  | O => Return res
  | S count =>
      mime_msg ← conn_article start;
      fetch_loop (start + 1) count (res ++ [message mime_msg])
  end.

(** The result and the dictionary after the call. *)
Definition updateTopic (groups : groups_t) (topic : string)
  : outcome (list string) * groups_t :=
  match conn_group topic with
  | Raise e => (Raise e, groups)
  | Return (first, last) =>
      match get_item groups topic with
      | None => (Raise KeyError, groups)
      | Some seen =>
          let start := Z.max (seen + 1) first in
          match fetch_loop start (Z.to_nat (last - start + 1)) [] with
          | Raise e => (Raise e, groups)
          | Return res => (Return res, set_item topic last groups)
          end
      end
  end.

End Reader.

End newsReader.

(* ===================================================================== *)
(** * Further notions and fixtures *)
(* ===================================================================== *)

Module More.

(** Does [c] occur in [s]? *)
Fixpoint has_char (c : ascii) (s : string) : bool :=
  match s with
  | EmptyString => false
  | String x r => Ascii.eqb x c || has_char c r
  end.

(** A server with the articles 1 to 5 of one group; article 4 cannot be
    fetched when [down] is set. *)
Definition server_group (topic : string) : outcome (Z * Z) :=
  if decide (topic = "metu.ceng.test") then Return (1, 5)
  else Raise (OtherError "NNTPTemporaryError").

Definition server_article (down : bool) (n : Z) : outcome newsReader.mime :=
  if down && (n =? 4) then Raise (OtherError "NNTPTemporaryError")
  else Return (newsReader.mkMime
                 (fun h => if decide (h = "Subject")
                           then Some ("post " +:+ newsArticle.str_int n)
                           else None)
                 [("multipart/mixed", ""); ("text/plain", "body")]).

Definition server_groups : newsReader.groups_t :=
  [("metu.ceng.announce", 7); ("metu.ceng.test", 2)].


(** A mention manager that gives up. *)
Definition interrupted (calls : nat) (text topic : string)
  : outcome unit * nat :=
  (Raise (NonError "KeyboardInterrupt"), S calls).

(** The events [HTMLParser] gives for an anchor whose href is written
    se&amp;cond and whose content is x &amp; y: the parser decodes the
    references of an attribute value before it calls the start handler,
    and reports a reference in the text through [handle_entityref]. *)
Definition entity_html : string :=
  "<a href=" +:+ quoted "se&amp;cond" +:+ ">x &amp; y</a>".

Definition lex_entity (html : string)
  : list articleParser.token * option exn :=
  ([articleParser.StartTag "a" [("href", Some "se&cond")];
    articleParser.Data "x "; articleParser.EntityRef "amp";
    articleParser.Data " y"; articleParser.EndTag "a"], None).

End More.

(* ===================================================================== *)
(** * The tags of the output text *)
(* ===================================================================== *)

Module Balance.

Import articleParser Spec More.








End Balance.

(* ===================================================================== *)
(** * Properties *)
(* ===================================================================== *)

Import articleParser Re Spec.

(** ** Strings *)

Lemma prefix_app (p s : string) :
  String.prefix p s = true ↔ ∃ r, s = p +:+ r.
Proof.
  revert s; induction p as [|a p IH]; intros s.
  - split; [intros _; by exists s | by destruct s].
  - destruct s as [|b s]; simpl.
    + split; [done | intros [r Hr]; discriminate].
    + destruct (ascii_dec a b) as [->|Hne].
      * rewrite IH. split; intros [r Hr]; exists r; [by rewrite Hr | by injection Hr].
      * split; [done | intros [r Hr]; injection Hr; congruence].
Qed.

Lemma len_lt (s : string) (n : nat) :
  (len s <? Z.of_nat n) = true ↔ (String.length s < n)%nat.
Proof. unfold len. rewrite Z.ltb_lt. lia. Qed.

(** ** The plus-one classifier *)

(** C9.  A body classifies as plus-one exactly when it starts with the
    literal +1 and is under ten characters long; the three bodies of the
    specification classify as it says; and the method computes the
    classification at most once: after a first call the cached answer is
    returned, whatever the raw body has become since. *)
Theorem isPlusOne_classifies_once :
  (∀ msg, isPlusOne msg = true ↔
          (∃ rest, msg = "+1" +:+ rest) ∧ (String.length msg < 10)%nat)
  ∧ isPlusOne "+1" = true
  ∧ isPlusOne "+1 agreed more" = false
  ∧ isPlusOne "-1 disagree" = false
  ∧ (∀ MM (w : newsArticle.world MM), ∃ b,
        let w1 := if newsArticle.is_plus_one MM (newsArticle.self MM w) is None
                  then newsArticle.mutate MM (newsArticle.set_is_plus_one MM (Some b)) w
                  else w in
        newsArticle.isPlusOne MM w = (Return b, w1)
        ∧ newsArticle.is_plus_one MM (newsArticle.self MM w1) = Some b
        ∧ (newsArticle.is_plus_one MM (newsArticle.self MM w) = None →
           b = isPlusOne (newsArticle.raw_msg MM (newsArticle.self MM w)))
        ∧ ∀ msg',
            let w2 := newsArticle.mutate MM (newsArticle.set_raw_msg MM msg') w1 in
            newsArticle.isPlusOne MM w2 = (Return b, w2)).
Proof.
  split; [|split; [|split; [|split]]]; try reflexivity.
  - intros msg. unfold isPlusOne, startswith.
    rewrite andb_true_iff, prefix_app. by rewrite (len_lt msg 10).
  - intros MM [a out]. destruct a as [u d tp sj dt rm rh mm br ct [b|]].
    + exists b. repeat split; done.
    + exists (isPlusOne rm). repeat split; done.
Qed.

(** ** The date formatter *)

(** C3.  An offset of two fields is no number of hours: whatever the
    timestamp, [getHumanReadableDate] raises and returns no date, and on
    the timestamp of the specification with the offset [3, 0] the error is
    the [TypeError] of [timedelta]; with the bare number 3 in its place
    the same timestamp gives the date the specification expects. *)
Theorem getHumanReadableDate_two_field_offset :
  (∀ rawDate hours minutes, ∃ e,
      getHumanReadableDate (rawDate, PyList [hours; minutes]) = Raise e)
  ∧ getHumanReadableDate ("2020-02-03T18:30:00.000Z", PyList [3; 0])
    = Raise TypeError
  ∧ getHumanReadableDate ("2020-02-03T18:30:00.000Z", PyInt 3)
    = Return "03 Feb 2020, 21:30:00".
Proof.
  split; [|split; vm_compute; reflexivity].
  intros rawDate hours minutes. unfold getHumanReadableDate.
  destruct (DateTime.strptime (split_first rawDate ".")) as [dt|e]; simpl.
  - by exists TypeError.
  - by exists e.
Qed.

(** ** The handlers of [articleParser] *)

Ltac not_in_list :=
  let H := fresh in
  intros H; repeat (apply elem_of_cons in H as [H|H]; [discriminate H|]);
  by apply elem_of_nil in H.

Ltac case_decides :=
  repeat match goal with
         | |- context [decide ?P] => destruct (decide P)
         end.

Lemma tag_attrs_fold (name : string) (attrs : list attr)
    (d : gmap string (option string)) :
  name ∈ useful_attrs →
  foldl (fun d (a : attr) =>
           if decide (a.1 ∈ useful_attrs) then <[a.1 := a.2]> d else d)
        d attrs !! name
  = match attribute name attrs with Some v => Some v | None => d !! name end.
Proof.
  intros Hin. revert d. induction attrs as [|[k v] attrs IH]; intros d; [done|].
  simpl. rewrite IH. unfold attribute. rewrite filter_cons. simpl.
  destruct (decide (k = name)) as [->|Hne].
  - rewrite last_cons. destruct (last _) as [[k' v']|]; simpl; [done|].
    rewrite decide_True by done. by rewrite lookup_insert_eq.
  - destruct (last _) as [[k' v']|]; simpl; [done|].
    destruct (decide (k ∈ useful_attrs)); [|done].
    by rewrite lookup_insert_ne.
Qed.

Lemma tag_attrs_lookup (name : string) (attrs : list attr) :
  name ∈ useful_attrs → tag_attrs_of attrs !! name = attribute name attrs.
Proof.
  intros Hin. unfold tag_attrs_of. rewrite tag_attrs_fold by done.
  rewrite lookup_empty. by destruct (attribute name attrs).
Qed.

Lemma get_attr_attribute (name dflt : string) (attrs : list attr) :
  name ∈ useful_attrs →
  get_attr (tag_attrs_of attrs) name dflt
  = default (Some dflt) (attribute name attrs).
Proof. intros Hin. unfold get_attr. by rewrite tag_attrs_lookup. Qed.

Lemma href_useful : "href" ∈ useful_attrs.
Proof. set_solver. Qed.
Lemma title_useful : "title" ∈ useful_attrs.
Proof. set_solver. Qed.
Lemma class_useful : "class" ∈ useful_attrs.
Proof. set_solver. Qed.

(** What the start handler does with an anchor. *)
Lemma handle_starttag_a (emoji : gmap string string) (fed : list string)
    (attrs : list attr) :
  handle_starttag emoji fed "a" attrs
  = match attribute "href" attrs with
    | Some None => Raise TypeError
    | Some (Some v) => Return (fed ++ ["<a href=" +:+ quoted v +:+ ">"])
    | None => Return (fed ++ ["<a href=" +:+ quoted "" +:+ ">"])
    end.
Proof.
  unfold handle_starttag.
  rewrite (decide_True (P := "a" ∈ supported_tags)) by set_solver.
  rewrite (decide_True (P := "a" = "a")) by done.
  rewrite (get_attr_attribute "href") by apply href_useful.
  destruct (attribute "href" attrs) as [[v|]|]; simpl; try done;
    by rewrite (decide_False (P := "a" = "img" ∧ _)) by (by intros [? _]).
Qed.

(** What the start handler does with an image. *)
Lemma handle_starttag_img (emoji : gmap string string) (fed : list string)
    (attrs : list attr) :
  handle_starttag emoji fed "img" attrs
  = if decide (attribute "class" attrs = Some (Some "emoji"))
    then Return (fed ++ [emoji_get emoji
                           (default (Some ":cow:") (attribute "title" attrs))])
    else Return fed.
Proof.
  unfold handle_starttag.
  rewrite (decide_False (P := "img" ∈ supported_tags)) by not_in_list.
  replace (tag_mapping !! "img") with (@None string) by reflexivity.
  simpl. rewrite (get_attr_attribute "class") by apply class_useful.
  rewrite (get_attr_attribute "title") by apply title_useful.
  destruct (attribute "class" attrs) as [[c|]|]; simpl;
    case_decides; try done; exfalso; intuition congruence.
Qed.

Lemma handle_endtag_img (fed : list string) : handle_endtag fed "img" = fed.
Proof.
  unfold handle_endtag.
  rewrite (decide_False (P := "img" ∈ supported_tags)) by not_in_list.
  reflexivity.
Qed.

(** C2 as the code has it.  An image whose class is emoji is replaced by
    one fragment and no tag: the glyph of its title when the title is a
    key of the table, the glyph of the key :cow: when it has no title
    (the empty string when that key is unmapped), and the empty string
    when its title is no key of the table or has no value.  Its end tag
    emits nothing. *)
Theorem emoji_image_replaced (emoji : gmap string string)
    (fed : list string) (attrs : list attr) :
  attribute "class" attrs = Some (Some "emoji") →
  handle_starttag emoji fed "img" attrs
  = Return (fed ++ [match attribute "title" attrs with
                    | Some (Some title) => default "" (emoji !! title)
                    | Some None => ""
                    | None => default "" (emoji !! ":cow:")
                    end])
  ∧ ∀ fed', handle_endtag fed' "img" = fed'.
Proof.
  intros Hclass. split; [|apply handle_endtag_img].
  rewrite handle_starttag_img, decide_True by done.
  by destruct (attribute "title" attrs) as [[title|]|].
Qed.

Lemma emoji_image_replaced_witness :
  handle_starttag Fixtures.emoji [] "img"
    [("class", Some "emoji"); ("title", Some ":smile:")] = Return ["S"].
Proof.
  exact (proj1 (emoji_image_replaced Fixtures.emoji []
                  [("class", Some "emoji"); ("title", Some ":smile:")]
                  eq_refl)).
Defined.

(** C2 as stated fails: with :cow: mapped to a glyph, an emoji image whose
    title is no key of the table is replaced by the empty string, not by
    the glyph of :cow:. *)
Lemma emoji_unknown_title_counterexample :
  let attrs := [("class", Some "emoji"); ("title", Some ":nope:")] in
  Fixtures.emoji !! ":nope:" = None
  ∧ Fixtures.emoji !! ":cow:" = Some "C"
  ∧ handle_starttag Fixtures.emoji [] "img" attrs = Return [""]
  ∧ handle_starttag Fixtures.emoji [] "img" attrs ≠ Return ["C"].
Proof. vm_compute. repeat split; discriminate. Qed.



(** ** Feeding a sequence of events *)

Lemma append_cons (x : ascii) (a b : string) :
  String x a +:+ b = String x (a +:+ b).
Proof. reflexivity. Qed.

Lemma append_nil_l (a : string) : "" +:+ a = a.
Proof. reflexivity. Qed.

Lemma append_assoc (a b c : string) : (a +:+ b) +:+ c = a +:+ (b +:+ c).
Proof.
  induction a as [|x a IH]; [done|]. by rewrite !append_cons, IH.
Qed.

Lemma append_nil_r (a : string) : a +:+ "" = a.
Proof. induction a as [|x a IH]; [done|]. by rewrite append_cons, IH. Qed.

Lemma length_append (a b : string) :
  String.length (a +:+ b) = (String.length a + String.length b)%nat.
Proof.
  induction a as [|x a IH]; [done|]. rewrite append_cons. simpl. by rewrite IH.
Qed.

Lemma join_app (l1 l2 : list string) : join (l1 ++ l2) = join l1 +:+ join l2.
Proof.
  induction l1 as [|x l1 IH]; [done|].
  change (join ((x :: l1) ++ l2)) with (x +:+ join (l1 ++ l2)).
  change (join (x :: l1)) with (x +:+ join l1).
  by rewrite IH, append_assoc.
Qed.

(** The handlers only append, and what they append does not depend on what
    was fed before. *)
Lemma handle_starttag_append (emoji : gmap string string) (fed : list string)
    (tag : string) (attrs : list attr) :
  handle_starttag emoji fed tag attrs
  = out ← handle_starttag emoji [] tag attrs; Return (fed ++ out).
Proof.
  unfold handle_starttag.
  destruct (if decide (tag ∈ supported_tags) then _ else _) as [p|]; simpl.
  - destruct (if decide (tag = "a") then _ else _) as [s|e]; simpl; [|done].
    case_decides; simpl; [rewrite <- app_assoc|]; reflexivity.
  - case_decides; simpl; [|rewrite app_nil_r]; reflexivity.
Qed.

Lemma dispatch_append (emoji : gmap string string) (fed : list string)
    (t : token) :
  dispatch emoji fed t = out ← dispatch emoji [] t; Return (fed ++ out).
Proof.
  destruct t as [tag attrs|tag|tag attrs|data|name|name|]; simpl;
    try (by rewrite ?app_nil_r).
  - apply handle_starttag_append.
  - unfold handle_endtag.
    destruct (if decide _ then _ else _); simpl; by rewrite ?app_nil_r.
  - rewrite handle_starttag_append.
    destruct (handle_starttag emoji [] tag attrs) as [out|e]; simpl; [|done].
    unfold handle_endtag. destruct (if decide _ then _ else _); simpl;
      [rewrite <- app_assoc|]; reflexivity.
Qed.

Lemma feed_tokens_append (emoji : gmap string string) (fed : list string)
    (ts : list token) :
  feed_tokens emoji fed ts
  = out ← feed_tokens emoji [] ts; Return (fed ++ out).
Proof.
  revert fed. induction ts as [|t ts IH]; intros fed; simpl.
  - by rewrite app_nil_r.
  - rewrite dispatch_append.
    destruct (dispatch emoji [] t) as [out|e]; simpl; [|done].
    rewrite IH, (IH out).
    destruct (feed_tokens emoji [] ts) as [out'|e]; simpl; [|done].
    by rewrite app_assoc.
Qed.

Lemma feed_tokens_app (emoji : gmap string string) (fed : list string)
    (ts1 ts2 : list token) :
  feed_tokens emoji fed (ts1 ++ ts2)
  = fed' ← feed_tokens emoji fed ts1; feed_tokens emoji fed' ts2.
Proof.
  revert fed. induction ts1 as [|t ts1 IH]; intros fed; simpl; [done|].
  destruct (dispatch emoji fed t) as [fed'|e]; simpl; [apply IH | done].
Qed.

(** C8.  An entity reference among the events of a text comes out as
    entity markup, an ampersand, its name and a semicolon, at its place
    between what the events before it and the events after it produce. *)
Theorem entityref_preserved (emoji : gmap string string)
    (before after : list token) (name : string) (out1 out2 : list string) :
  feed_tokens emoji [] before = Return out1 →
  feed_tokens emoji [] after = Return out2 →
  feed_tokens emoji [] (before ++ EntityRef name :: after)
  = Return (out1 ++ ["&" +:+ name +:+ ";"] ++ out2)
  ∧ get_data (out1 ++ ["&" +:+ name +:+ ";"] ++ out2)
    = get_data out1 +:+ ("&" +:+ name +:+ ";") +:+ get_data out2.
Proof.
  intros H1 H2. split.
  - rewrite feed_tokens_app, H1. simpl. rewrite feed_tokens_append, H2.
    simpl. unfold handle_entityref. by rewrite <- app_assoc.
  - unfold get_data. rewrite !join_app. unfold join at 2. simpl.
    by rewrite append_nil_r.
Qed.

Lemma entityref_preserved_witness :
  feed_tokens Fixtures.emoji []
    ([StartTag "b" []; Data "x "] ++ EntityRef "gt" :: [Data " y"; EndTag "b"])
  = Return ["<b>"; "x "; "&gt;"; " y"; "</b>"]
  ∧ get_data ["<b>"; "x "; "&gt;"; " y"; "</b>"] = "<b>x &gt; y</b>".
Proof.
  exact (entityref_preserved Fixtures.emoji [StartTag "b" []; Data "x "]
           [Data " y"; EndTag "b"] "gt" ["<b>"; "x "] [" y"; "</b>"]
           eq_refl eq_refl).
Defined.

(** ** The article: rendering once, failing once *)

Section ArticleProperties.

Variable emoji : gmap string string.
Variable lex : string -> list token * option exn.
Variable MM : Type.
Variable parseMentions : MM -> string -> string -> outcome unit * MM.

Local Abbreviation world := (newsArticle.world MM).
Local Abbreviation self := (newsArticle.self MM).
Local Abbreviation console := (newsArticle.console MM).
Local Abbreviation content := (newsArticle.content MM).
Local Abbreviation broken := (newsArticle.broken MM).
Local Abbreviation mutate := (newsArticle.mutate MM).
Local Abbreviation set_raw_html := (newsArticle.set_raw_html MM).
Local Abbreviation parseMessage_try :=
  (newsArticle.parseMessage_try emoji lex MM parseMentions).
Local Abbreviation parseMessage := (newsArticle.parseMessage emoji lex MM parseMentions).
Local Abbreviation getAsHtml := (newsArticle.getAsHtml emoji lex MM parseMentions).

(** The body of the [try] prints nothing and leaves the [broken] flag
    alone; it sets the content when it returns and only then. *)
Lemma parseMessage_try_frame (w : world) :
  let '(r, w') := parseMessage_try w in
  broken (self w') = broken (self w)
  ∧ console w' = console w
  ∧ match r with
    | Return _ => is_Some (content (self w'))
    | Raise _ => content (self w') = content (self w)
    end.
Proof.
  destruct w as [[u d tp sj dt rm rh mm br ct ipo] out].
  unfold newsArticle.parseMessage_try, newsArticle.makeHeader,
    newsArticle.isPlusOne, newsArticle.bind, newsArticle.get, newsArticle.lift,
    newsArticle.call_parseMentions, newsArticle.modify, newsArticle.ret,
    newsArticle.mutate.
  destruct ipo as [b|]; simpl;
    (destruct (newsArticle.transcode emoji lex rh) as [c|e]; simpl; [|done]);
    (destruct (parseMentions mm c tp) as [[[]|e] mm']; simpl; [|done]);
    repeat split; by eexists.
Qed.

(** A content request on an article that is parsed or broken does nothing
    but return what is cached. *)
Lemma getAsHtml_settled (w : world) :
  content (self w) ≠ None ∨ broken (self w) = true →
  getAsHtml w = (Return (content (self w)), w).
Proof.
  destruct w as [[u d tp sj dt rm rh mm br ct ipo] out]. simpl.
  unfold newsArticle.getAsHtml, newsArticle.parseMessage, newsArticle.bind,
    newsArticle.get, newsArticle.ret. simpl.
  destruct ct as [c|]; [done|]. intros [?| ->]; done.
Qed.

(** A content request that returns leaves the article parsed or broken,
    and returns the content it has cached. *)
Lemma getAsHtml_settles (w w1 : world) (r : option string) :
  getAsHtml w = (Return r, w1) →
  r = content (self w1)
  ∧ (content (self w1) ≠ None ∨ broken (self w1) = true).
Proof.
  destruct (content (self w)) as [c|] eqn:Hc.
  { rewrite getAsHtml_settled by (left; congruence).
    intros [= <- <-]. rewrite Hc. split; [done | by left]. }
  destruct (broken (self w)) eqn:Hb.
  { rewrite getAsHtml_settled by (by right).
    intros [= <- <-]. split; [done | by right]. }
  pose proof (parseMessage_try_frame w) as Hframe.
  unfold newsArticle.getAsHtml, newsArticle.parseMessage, newsArticle.bind,
    newsArticle.get, newsArticle.ret, newsArticle.try_except. simpl.
  rewrite Hc, Hb.
  destruct (parseMessage_try w) as [[[]|e] w'].
  - destruct Hframe as (_ & _ & [c Hsome]).
    intros [= <- <-]. split; [done|]. left. congruence.
  - destruct (is_Exception e); [|done].
    unfold newsArticle.parseMessage_except, newsArticle.bind, newsArticle.print,
      newsArticle.modify. simpl.
    intros [= <- <-]. split; [done | by right].
Qed.

Lemma mutate_raw_html_settled (w : world) (html' : string) :
  content (self w) ≠ None ∨ broken (self w) = true →
  content (self (mutate (set_raw_html html') w)) ≠ None
  ∨ broken (self (mutate (set_raw_html html') w)) = true.
Proof. by destruct w as [[] ?]. Qed.

(** C5.  The render step runs at most once: [parseMessage] does nothing on
    a broken article, and a content request on an article already parsed
    or broken does not render, changes nothing and returns what is
    cached; so after a request that has returned, a second one returns
    the same content, with no collaborator called and nothing printed,
    even when the raw HTML was changed in between. *)
Theorem content_rendered_once (w : world) :
  (broken (self w) = true → parseMessage w = (Return tt, w))
  ∧ (content (self w) ≠ None ∨ broken (self w) = true →
     getAsHtml w = (Return (content (self w)), w))
  ∧ (∀ r w1 html',
        getAsHtml w = (Return r, w1) →
        getAsHtml (mutate (set_raw_html html') w1)
        = (Return r, mutate (set_raw_html html') w1)).
Proof.
  split; [|split; [apply getAsHtml_settled|]].
  { intros Hb. unfold newsArticle.parseMessage, newsArticle.bind,
      newsArticle.get. simpl. by rewrite Hb. }
  intros r w1 html' [-> Hset]%getAsHtml_settles.
  rewrite getAsHtml_settled by by apply mutate_raw_html_settled.
  by destruct w1 as [[] ?].
Qed.


End ArticleProperties.

Lemma content_rendered_once_witness :
  let w := Fixtures.world "+1" "hello" in
  ∃ r w1,
    newsArticle.getAsHtml Fixtures.emoji Fixtures.lex nat Fixtures.parseMentions w
    = (Return (Some r), w1)
    ∧ newsArticle.getAsHtml Fixtures.emoji Fixtures.lex nat Fixtures.parseMentions
        (newsArticle.mutate nat (newsArticle.set_raw_html nat "<i>other</i>") w1)
      = (Return (Some r),
         newsArticle.mutate nat (newsArticle.set_raw_html nat "<i>other</i>") w1).
Proof.
  intros w. eexists _, _. split; [vm_compute; reflexivity|].
  apply (proj2 (proj2 (content_rendered_once Fixtures.emoji Fixtures.lex nat
                         Fixtures.parseMentions w))).
  vm_compute. reflexivity.
Defined.


(** ** Tag balance *)

(** Both handlers take the decision of [output_tag]. *)
Lemma tag_decision (tag : string) :
  (if decide (tag ∈ supported_tags) then Some tag else tag_mapping !! tag)
  = output_tag tag.
Proof.
  unfold output_tag. destruct (decide (tag ∈ supported_tags)); [done|].
  unfold tag_mapping.
  destruct (decide (tag ∈ ["h1"; "h2"; "h3"])) as [Hin|Hout].
  - repeat (apply elem_of_cons in Hin as [->|Hin]); try reflexivity.
    by apply elem_of_nil in Hin.
  - destruct (decide (tag = "blockquote")) as [->|Hne]; [reflexivity|].
    rewrite !lookup_insert_ne, lookup_singleton_ne; [done|congruence|..];
      intros <-; apply Hout; set_solver.
Qed.

Lemma handle_endtag_decision (fed : list string) (tag : string) :
  handle_endtag fed tag
  = match output_tag tag with
    | Some p => fed ++ ["</" +:+ p +:+ ">"]
    | None => fed
    end.
Proof. unfold handle_endtag. by rewrite tag_decision. Qed.


Lemma output_tag_img : output_tag "img" = None.
Proof. reflexivity. Qed.



(** ** Slices *)

Lemma sdrop_nil (n : nat) : sdrop n "" = "".
Proof. by destruct n. Qed.

Lemma length_sdrop (n : nat) (s : string) :
  String.length (sdrop n s) = (String.length s - n)%nat.
Proof.
  revert s; induction n as [|n IH]; intros [|c s]; simpl; done.
Qed.

Lemma substring_sdrop (n m : nat) (s : string) :
  String.substring n m s = String.substring 0 m (sdrop n s).
Proof.
  revert s; induction n as [|n IH]; intros [|c s]; simpl; try done.
  by destruct m.
Qed.

Lemma substring_all (m : nat) (s : string) :
  (String.length s ≤ m)%nat → String.substring 0 m s = s.
Proof.
  revert m; induction s as [|c s IH]; intros [|m] Hle; simpl in *; try done.
  - lia.
  - rewrite IH; [done | lia].
Qed.

Lemma substring_app (a b : string) :
  String.substring 0 (String.length a) (a +:+ b) = a.
Proof.
  induction a as [|c a IH]; [by destruct b|].
  rewrite append_cons. simpl. by rewrite IH.
Qed.

Lemma sdrop_app (a b : string) : sdrop (String.length a) (a +:+ b) = b.
Proof. induction a as [|c a IH]; [done|]. by rewrite append_cons. Qed.

Lemma sdrop_app_le (n : nat) (a b : string) :
  (n ≤ String.length a)%nat → sdrop n (a +:+ b) = sdrop n a +:+ b.
Proof.
  revert a; induction n as [|n IH]; intros [|c a] Hle; simpl in *;
    try done; try lia.
  rewrite ?append_cons. simpl. apply IH. lia.
Qed.

Lemma sdrop_sdrop (n m : nat) (s : string) :
  sdrop n (sdrop m s) = sdrop (m + n) s.
Proof.
  revert s; induction m as [|m IH]; intros [|c s]; simpl; try done.
  apply sdrop_nil.
Qed.

Lemma sdrop_long (n : nat) (s : string) :
  (String.length s ≤ n)%nat → sdrop n s = "".
Proof.
  revert s; induction n as [|n IH]; intros [|c s] Hle; simpl in *;
    try done; try lia.
  apply IH. lia.
Qed.

(** A slice between bounds that are not negative. *)
Lemma slice_nonneg (s : string) (a b : Z) :
  0 ≤ a → 0 ≤ b →
  slice s a b = String.substring 0 (Z.to_nat (b - a)) (sdrop (Z.to_nat a) s).
Proof.
  intros Ha Hb. unfold slice, clamp, len.
  rewrite (proj2 (Z.ltb_ge a 0)), (proj2 (Z.ltb_ge b 0)) by lia.
  rewrite substring_sdrop.
  destruct (decide (Z.of_nat (String.length s) ≤ a)) as [Hlong|Hshort].
  - rewrite (Z.min_r a) by lia. rewrite Nat2Z.id.
    rewrite !sdrop_long by lia. by destruct (Z.to_nat _), (Z.to_nat _).
  - rewrite (Z.min_l a) by lia.
    destruct (decide (b ≤ Z.of_nat (String.length s))) as [Hin|Hover].
    + by rewrite (Z.min_l b) by lia.
    + rewrite (Z.min_r b) by lia.
      rewrite !substring_all; [done|rewrite length_sdrop; lia..].
Qed.

Lemma slice_from_nonneg (s : string) (a : Z) :
  0 ≤ a → slice_from s a = sdrop (Z.to_nat a) s.
Proof.
  intros Ha. unfold slice_from. rewrite slice_nonneg by (unfold len; lia).
  apply substring_all. rewrite length_sdrop. unfold len. lia.
Qed.

(** ** Searching *)

Lemma find_from_index (sub s : string) (i : Z) :
  find_from i sub s
  = match index_of sub s with Some n => i + Z.of_nat n | None => -1 end.
Proof.
  revert i; induction s as [|c s IH]; intros i.
  - cbn [find_from index_of].
    destruct (String.prefix sub ""); simpl; [lia | done].
  - cbn [find_from index_of].
    destruct (String.prefix sub (String c s)); [simpl; lia|].
    rewrite IH. destruct (index_of sub s); simpl; [lia | done].
Qed.

Lemma find_index (sub s : string) :
  find s sub = match index_of sub s with Some n => Z.of_nat n | None => -1 end.
Proof.
  unfold find. rewrite find_from_index. by destruct (index_of sub s).
Qed.

Lemma strip_prefix_app (p s r : string) :
  strip_prefix p s = Some r ↔ s = p +:+ r.
Proof.
  revert s; induction p as [|a p IH]; intros s; simpl.
  - rewrite append_nil_l. split; congruence.
  - destruct s as [|b s]; [by rewrite append_cons|]. rewrite append_cons.
    destruct (Ascii.eqb_spec a b) as [->|Hne].
    + rewrite IH. split; congruence.
    + split; [done | congruence].
Qed.

Lemma strip_prefix_None (p s : string) :
  strip_prefix p s = None → String.prefix p s = false.
Proof.
  intros Hnone. destruct (String.prefix p s) eqn:Hp; [|done].
  apply prefix_app in Hp as [r Hr]. apply strip_prefix_app in Hr. congruence.
Qed.

Lemma span_until_index (c : ascii) (s r : string) (n : nat) :
  span_until c s = Some (n, r) → index_of (String c "") s = Some n.
Proof.
  revert n; induction s as [|x s IH]; intros n; [done|].
  cbn [span_until index_of String.prefix].
  destruct (Ascii.eqb_spec x c) as [->|Hne].
  - intros [= <- <-]. destruct (ascii_dec c c); [by destruct s | done].
  - destruct (ascii_dec c x) as [->|_]; [done|].
    destruct (span_until c s) as [[n' r']|]; [|done].
    intros [= <- <-]. by rewrite (IH n').
Qed.

(** ** The queue of image sources and the turns of the loop *)

Lemma image_sources_from_cons (c : ascii) (html : string) :
  image_sources_from 0 (String c html)
  = match strip_prefix newsArticle.img_tag (String c html) with
    | Some r =>
        match span_until dquote r with
        | Some (n, _) =>
            String.substring 0 n r :: image_sources_from (9 + n) html
        | None => []
        end
    | None => image_sources_from 0 html
    end.
Proof. reflexivity. Qed.

Lemma image_sources_from_skip (k : nat) (html : string) :
  image_sources_from k html = image_sources_from 0 (sdrop k html).
Proof.
  revert k; induction html as [|c html IH]; intros [|k]; try done.
  apply IH.
Qed.

(** The head of the queue is found where the loop looks for it. *)
Lemma image_sources_head (html u : string) (us : list string) :
  image_sources html = u :: us →
  ∃ p n : nat,
    index_of newsArticle.img_tag html = Some p
    ∧ index_of (String dquote "") (sdrop (p + 10) html) = Some n
    ∧ u = String.substring 0 n (sdrop (p + 10) html)
    ∧ us = image_sources (sdrop (p + 10 + n) html).
Proof.
  unfold image_sources. induction html as [|c html IH]; [done|].
  rewrite image_sources_from_cons.
  destruct (strip_prefix _ _) as [r|] eqn:Hstrip.
  - apply strip_prefix_app in Hstrip.
    destruct (span_until dquote r) as [[n r']|] eqn:Hspan; [|done].
    intros [= <- <-]. exists O, n.
    assert (Hdrop : sdrop 10 (String c html) = r).
    { rewrite Hstrip. apply (sdrop_app newsArticle.img_tag). }
    change (0 + 10)%nat with 10%nat. rewrite Hdrop.
    split; [|split; [|split]].
    + cbn [index_of]. rewrite Hstrip.
      by rewrite (proj2 (prefix_app _ _)) by by exists r.
    + by eapply span_until_index.
    + done.
    + by rewrite image_sources_from_skip.
  - apply strip_prefix_None in Hstrip.
    intros Hsrc. destruct (IH Hsrc) as (p & n & Hp & Hn & Hu & Hus).
    exists (S p), n. cbn [index_of]. rewrite Hstrip, Hp.
    by repeat split.
Qed.

Lemma pop_image_source (html u : string) (us : list string) :
  image_sources html = u :: us →
  (pop html).1 = u ∧ image_sources (pop html).2 = us.
Proof.
  intros (p & n & Hp & Hn & -> & ->)%image_sources_head.
  unfold pop. rewrite find_index, Hp.
  change (len newsArticle.img_tag) with 10.
  rewrite slice_from_nonneg by lia.
  replace (Z.to_nat (Z.of_nat p + 10)) with (p + 10)%nat by lia.
  rewrite find_index, Hn. simpl.
  rewrite slice_nonneg, slice_from_nonneg by lia.
  replace (Z.to_nat (Z.of_nat p + 10)) with (p + 10)%nat by lia.
  replace (Z.to_nat (Z.of_nat p + 10 + Z.of_nat n)) with (p + 10 + n)%nat
    by lia.
  replace (Z.to_nat (Z.of_nat p + 10 + Z.of_nat n - (Z.of_nat p + 10)))
    with n by lia.
  done.
Qed.

Lemma length_pops (n : nat) (html : string) : length (pops n html) = n.
Proof. revert html; induction n as [|n IH]; intros html; simpl; auto. Qed.

(** While the queue lasts, the loop cuts out its URLs in order. *)
Lemma pops_lookup (n i : nat) (html u : string) :
  image_sources html !! i = Some u → (i < n)%nat →
  pops n html !! i = Some u.
Proof.
  revert html i; induction n as [|n IH]; intros html i Hi Hlt; [lia|].
  destruct (image_sources html) as [|u0 us] eqn:Hsrc; [done|].
  apply pop_image_source in Hsrc as [Hu Hus].
  destruct i as [|i]; simpl in *.
  - congruence.
  - apply IH; [by rewrite Hus | lia].
Qed.

Lemma pops_take (n : nat) (html : string) :
  (n ≤ length (image_sources html))%nat →
  pops n html = take n (image_sources html).
Proof.
  revert html; induction n as [|n IH]; intros html Hle; [done|].
  destruct (image_sources html) as [|u us] eqn:Hsrc; [simpl in Hle; lia|].
  apply pop_image_source in Hsrc as [Hu Hus].
  simpl in *. rewrite Hu, IH; rewrite Hus; [done | lia].
Qed.

(** ** The markdown side of the loop *)

Lemma span_until_length (c : ascii) (s r : string) (n : nat) :
  span_until c s = Some (n, r) →
  String.length s = (n + 1 + String.length r)%nat.
Proof.
  revert n; induction s as [|x s IH]; intros n; [done|]. simpl.
  destruct (Ascii.eqb x c).
  - intros [= <- <-]. done.
  - destruct (span_until c s) as [[n' r']|]; [|done].
    intros [= <- <-]. by rewrite (IH n').
Qed.

Lemma match_here_length (s : string) (n1 n : nat) :
  match_here s = Some (n1, n) → (5 ≤ n ≤ String.length s)%nat.
Proof.
  unfold match_here. destruct s as [|c1 [|c2 r]]; try done.
  destruct (_ && _); [|done].
  destruct (span_until "]" r) as [[k1 r1]|] eqn:H1; [|done]. simpl.
  destruct r1 as [|c3 r2]; [done|]. destruct (Ascii.eqb c3 "("); [|done].
  destruct (span_until ")" r2) as [[k2 r3]|] eqn:H2; [|done]. simpl.
  intros [= <- <-].
  apply span_until_length in H1, H2. simpl in *. lia.
Qed.

Lemma append_snoc (pre : string) (c : ascii) (s : string) :
  pre +:+ String c s = (pre +:+ String c "") +:+ s.
Proof. by rewrite append_assoc. Qed.

Lemma length_snoc (pre : string) (c : ascii) :
  String.length (pre +:+ String c "") = S (String.length pre).
Proof. rewrite length_append. simpl. lia. Qed.

(** Where the cursor of the loop stands when the scan has read [pre] and
    has [s] before it: with no match under way, at some place in [pre],
    the text from there on pending; inside a match, at the end of that
    match, [skip] characters further on. *)
Definition cursor (pre s : string) (skip : nat) (last_pos : Z)
    (pending : string) : Prop :=
  match skip with
  | O => ∃ l, (l ≤ String.length pre)%nat
              ∧ last_pos = Z.of_nat l ∧ pending = sdrop l pre
  | S _ => (skip ≤ String.length s)%nat
           ∧ last_pos = Z.of_nat (String.length pre + skip)
           ∧ pending = ""
  end.

Lemma assemble_correlate (s : string) :
  ∀ pre skip parsed counter last_pos pending urls,
    let ms := finditer_from skip (Z.of_nat (String.length pre)) s in
    (length ms ≤ length urls)%nat →
    cursor pre s skip last_pos pending →
    ∃ rest,
      correlate_from skip counter urls s = Some rest
      ∧ finish (pre +:+ s)
          (assemble (pre +:+ s) (parsed, counter, last_pos) ms urls)
        = parsed +:+ pending +:+ rest.
Proof.
  induction s as [|c s IH]; intros pre skip parsed counter last_pos pending
    urls ms Hlen Hcur.
  { exists "". split; [by destruct skip|].
    subst ms. replace (finditer_from _ _ "") with (@nil re_match)
      by by destruct skip.
    destruct skip as [|k]; [|simpl in Hcur; lia].
    destruct Hcur as (l & Hl & -> & ->). cbn [assemble finish].
    rewrite slice_from_nonneg, Nat2Z.id by lia.
    by rewrite !append_nil_r. }
  pose proof (length_snoc pre c) as Hsnoc.
  assert (Hpos : Z.of_nat (String.length pre) + 1
                 = Z.of_nat (String.length (pre +:+ String c ""))) by lia.
  destruct skip as [|k].
  - destruct Hcur as (l & Hl & -> & ->).
    subst ms. cbn [finditer_from correlate_from] in *.
    destruct (match_here (String c s)) as [[n1 n]|] eqn:Hm.
    + pose proof (match_here_length _ _ _ Hm) as [Hn5 Hns].
      destruct urls as [|url urls]; [simpl in Hlen; lia|].
      destruct n as [|[|n]]; [lia..|]. simpl Nat.sub in *.
      cbn [assemble length] in *. rewrite Hpos in *.
      rewrite (append_snoc pre c s).
      edestruct (IH (pre +:+ String c "") (S n)) as (rest & Hrest & Hfin);
        [| |rewrite Hrest, Hfin].
      * lia.
      * unfold cursor. cbn [m_end].
        split; [simpl in Hns; lia|]. split; [rewrite Hsnoc; lia | done].
      * eexists. split; [reflexivity|].
        rewrite <- (append_snoc pre c s).
        cbn [m_start g1_start g1_end].
        rewrite !slice_nonneg by lia.
        replace (Z.to_nat (Z.of_nat (String.length pre) - Z.of_nat l))
          with (String.length (sdrop l pre)) by (rewrite length_sdrop; lia).
        rewrite Nat2Z.id, sdrop_app_le, substring_app by done.
        replace (Z.to_nat (Z.of_nat (String.length pre) + 2))
          with (String.length pre + 2)%nat by lia.
        replace (Z.to_nat (Z.of_nat (String.length pre) + 2 + Z.of_nat n1
                           - (Z.of_nat (String.length pre) + 2)))
          with n1 by lia.
        rewrite <- sdrop_sdrop, sdrop_app, <- substring_sdrop.
        by rewrite !append_assoc.
    + rewrite Hpos in *. rewrite (append_snoc pre c s).
      edestruct (IH (pre +:+ String c "") O) as (rest & Hrest & Hfin);
        [| |rewrite Hrest, Hfin].
      * done.
      * exists l. split; [lia | done].
      * eexists. split; [reflexivity|].
        rewrite sdrop_app_le by done. by rewrite !append_assoc.
  - destruct Hcur as (Hk & -> & ->).
    subst ms. cbn [finditer_from correlate_from] in *. rewrite Hpos in *.
    rewrite (append_snoc pre c s).
    edestruct (IH (pre +:+ String c "") k) as (rest & Hrest & Hfin);
      [| |rewrite Hrest, Hfin].
    + done.
    + destruct k as [|k].
      * exists (String.length (pre +:+ String c "")).
        split; [done|]. split; [lia|]. by rewrite sdrop_long.
      * split; [simpl in Hk; lia|]. split; [lia | done].
    + eexists. split; [reflexivity | done].
Qed.

(** The text the loop builds from the links [urls] is the markdown with
    its placeholders rewritten in order. *)
Lemma finish_correlate (msg : string) (urls : list string) :
  (length (finditer msg) ≤ length urls)%nat →
  correlate msg urls
  = Some (finish msg (assemble msg ("", 1, 0) (finditer msg) urls)).
Proof.
  intros Hlen.
  destruct (assemble_correlate msg "" O "" 1 0 "" urls Hlen)
    as (rest & Hrest & Hfin).
  { exists O. by repeat split. }
  unfold correlate. rewrite Hrest. f_equal. symmetry. exact Hfin.
Qed.

(** ** [parseLinks] *)

Section LinkProperties.

Variable MM : Type.

Local Abbreviation world := (newsArticle.world MM).
Local Abbreviation raw_html_of :=
  (fun w : world => newsArticle.raw_html MM (newsArticle.self MM w)).
Local Abbreviation parseLinks := (newsArticle.parseLinks MM).

Lemma parseLinks_iter_run (msg : string) (acc : string * Z * Z)
    (m : re_match) (w : world) :
  newsArticle.parseLinks_iter MM msg acc m w
  = (Return (assemble msg acc [m] [(pop (raw_html_of w)).1]),
     newsArticle.mutate MM
       (newsArticle.set_raw_html MM (pop (raw_html_of w)).2) w).
Proof. by destruct acc as [[parsed counter] last_pos]. Qed.

Lemma assemble_cons (msg : string) (acc : string * Z * Z) (m : re_match)
    (ms : list re_match) (url : string) (urls : list string) :
  assemble msg acc (m :: ms) (url :: urls)
  = assemble msg (assemble msg acc [m] [url]) ms urls.
Proof. by destruct acc as [[parsed counter] last_pos]. Qed.

Lemma assemble_take (msg : string) (ms : list re_match) :
  ∀ (urls : list string) (acc : string * Z * Z),
    assemble msg acc ms (take (length ms) urls) = assemble msg acc ms urls.
Proof.
  induction ms as [|m ms IH]; intros [|url urls] acc; try done.
  cbn [length take firstn].
  rewrite (assemble_cons msg acc m ms url), (assemble_cons msg acc m ms url).
  apply IH.
Qed.

(** The loop never raises: it returns what [assemble] builds from the
    links its turns cut out of the HTML. *)
Lemma parseLinks_loop_run (msg : string) (ms : list re_match) :
  ∀ (acc : string * Z * Z) (w : world), ∃ w',
    newsArticle.parseLinks_loop MM msg acc ms w
    = (Return (assemble msg acc ms (pops (length ms) (raw_html_of w))), w').
Proof.
  induction ms as [|m ms IH]; intros acc w.
  - exists w. by destruct acc as [[? ?] ?].
  - cbn [newsArticle.parseLinks_loop]. unfold newsArticle.bind.
    rewrite parseLinks_iter_run.
    edestruct IH as [w' Hw']. rewrite Hw'. exists w'.
    cbn [length pops]. by rewrite (assemble_cons msg acc m ms).
Qed.

Lemma parseLinks_run (msg : string) (w : world) :
  ∃ w', parseLinks msg w
        = (Return (finish msg
                     (assemble msg ("", 1, 0) (finditer msg)
                        (pops (length (finditer msg)) (raw_html_of w)))),
           w').
Proof.
  unfold newsArticle.parseLinks, newsArticle.bind.
  destruct (parseLinks_loop_run msg (finditer msg) ("", 1, 0) w) as [w' ->].
  exists w'. by destruct (assemble _ _ _ _) as [[? ?] ?].
Qed.

(** C7.  With at least as many image sources in the HTML as placeholders
    in the markdown, [parseLinks] returns the markdown with the i-th
    placeholder rewritten to its display name (the alt text, or Link i
    when that is empty) and the i-th image source, the text between and
    after the placeholders kept as it is. *)
Theorem parseLinks_correlates (msg : string) (w : world) :
  (length (finditer msg) ≤ length (image_sources (raw_html_of w)))%nat →
  ∃ out, correlate msg (image_sources (raw_html_of w)) = Some out
         ∧ (parseLinks msg w).1 = Return out.
Proof.
  intros Hlen. destruct (parseLinks_run msg w) as [w' ->].
  eexists. split; [|reflexivity].
  rewrite pops_take, assemble_take by done.
  by rewrite finish_correlate.
Qed.

(** C1 as the code has it.  [parseLinks] raises nothing, also when the
    HTML holds fewer image sources than the markdown holds placeholders:
    it returns the markdown with every placeholder rewritten and no text
    dropped, each placeholder taking the next image source while the
    queue lasts and, after that, whatever the search cuts out of the HTML
    that is left. *)
Theorem parseLinks_never_raises (msg : string) (w : world) :
  ∃ urls out,
    (parseLinks msg w).1 = Return out
    ∧ correlate msg urls = Some out
    ∧ length urls = length (finditer msg)
    ∧ ∀ i url, image_sources (raw_html_of w) !! i = Some url →
               (i < length (finditer msg))%nat →
               urls !! i = Some url.
Proof.
  destruct (parseLinks_run msg w) as [w' ->].
  exists (pops (length (finditer msg)) (raw_html_of w)). eexists.
  split; [reflexivity|]. split; [|split].
  - apply finish_correlate. by rewrite length_pops.
  - apply length_pops.
  - intros i url Hi Hlt. by apply pops_lookup.
Qed.

End LinkProperties.

Lemma parseLinks_correlates_witness :
  let html := "<p>" +:+ Fixtures.img "X" +:+ " and " +:+ Fixtures.img "Y"
              +:+ "</p>" in
  image_sources html = ["X"; "Y"]
  ∧ (newsArticle.parseLinks nat "![](upload://a) and ![cap](upload://b)"
       (Fixtures.world "" html)).1
    = Return "[Link 1](X) and [cap](Y)".
Proof.
  intros html. split; [reflexivity|].
  destruct (parseLinks_correlates nat "![](upload://a) and ![cap](upload://b)"
              (Fixtures.world "" html))
    as (out & Hout & Hrun).
  - vm_compute. lia.
  - rewrite Hrun. f_equal. vm_compute in Hout. congruence.
Defined.

(** C1 as stated fails: with one image source for two placeholders
    [parseLinks] raises nothing and returns a text whose second link has
    no URL. *)
Lemma parseLinks_underflow_counterexample :
  let html := "<p>" +:+ Fixtures.img "X" +:+ "</p>" in
  let msg := "![](upload://a) and ![cap](upload://b)" in
  image_sources html = ["X"]
  ∧ length (finditer msg) = 2%nat
  ∧ correlate msg (image_sources html) = None
  ∧ (newsArticle.parseLinks nat msg (Fixtures.world "" html)).1
    = Return "[Link 1](X) and [cap]()".
Proof. vm_compute. repeat split. Qed.

(* ===================================================================== *)
(** * Further properties *)
(* ===================================================================== *)

Import More.

(** ** The date formatter: what follows the first dot *)

Lemma prefix_char (c x : ascii) (r : string) :
  String.prefix (String c "") (String x r) = Ascii.eqb x c.
Proof.
  simpl. destruct (ascii_dec c x) as [->|Hne].
  - rewrite Ascii.eqb_refl. by destruct r.
  - symmetry. apply Ascii.eqb_neq. congruence.
Qed.

Lemma has_char_app (c : ascii) (a b : string) :
  has_char c (a +:+ b) = has_char c a || has_char c b.
Proof.
  induction a as [|x a IH]; [done|].
  rewrite append_cons. simpl. by rewrite IH, orb_assoc.
Qed.

Lemma index_of_char_none (c : ascii) (s : string) :
  has_char c s = false → index_of (String c "") s = None.
Proof.
  induction s as [|x s IH]; [done|]. simpl has_char.
  intros [Hx Hs]%orb_false_elim. cbn [index_of].
  by rewrite prefix_char, Hx, IH.
Qed.

Lemma index_of_char_app (c : ascii) (a b : string) :
  has_char c a = false →
  index_of (String c "") (a +:+ String c b) = Some (String.length a).
Proof.
  induction a as [|x a IH].
  - intros _. rewrite append_nil_l. cbn [index_of].
    by rewrite prefix_char, Ascii.eqb_refl.
  - simpl has_char. intros [Hx Ha]%orb_false_elim.
    rewrite append_cons. cbn [index_of].
    by rewrite prefix_char, Hx, IH.
Qed.

Lemma split_first_none (c : ascii) (s : string) :
  has_char c s = false → split_first s (String c "") = s.
Proof.
  intros Hs. unfold split_first.
  by rewrite find_index, index_of_char_none.
Qed.

Lemma split_first_app (c : ascii) (a b : string) :
  has_char c a = false → split_first (a +:+ String c b) (String c "") = a.
Proof.
  intros Ha. unfold split_first.
  rewrite find_index, index_of_char_app by done.
  rewrite (proj2 (Z.ltb_ge _ 0)) by lia.
  rewrite slice_nonneg by lia. simpl sdrop.
  rewrite Z.sub_0_r, Nat2Z.id. apply substring_app.
Qed.

(** X1.  Whatever follows the first dot of the raw timestamp is discarded
    before it is parsed: fractional seconds and a zone letter change
    neither the date returned nor the error raised. *)
Theorem date_suffix_discarded (rawDate suffix : string) (tz : value) :
  has_char "." rawDate = false →
  getHumanReadableDate (rawDate +:+ "." +:+ suffix, tz)
  = getHumanReadableDate (rawDate, tz).
Proof.
  intros Hdot. unfold getHumanReadableDate.
  change ("." +:+ suffix) with (String "." suffix).
  by rewrite split_first_app, split_first_none.
Qed.

Lemma date_suffix_discarded_witness :
  getHumanReadableDate ("2021-12-31T23:59:59" +:+ "." +:+ "123456Z", PyInt 3)
  = getHumanReadableDate ("2021-12-31T23:59:59", PyInt 3).
Proof.
  exact (date_suffix_discarded "2021-12-31T23:59:59" "123456Z" (PyInt 3)
           eq_refl).
Defined.

(** ** The transcoder: composition, unwrapping, attributes *)

(** X2.  The output of a sequence of events is the output of its first
    part followed by the output of the rest: what was fed before changes
    nothing of what an event emits. *)
Theorem transcode_concat (emoji : gmap string string)
    (ts1 ts2 : list token) (out1 out2 : list string) :
  feed_tokens emoji [] ts1 = Return out1 →
  feed_tokens emoji [] ts2 = Return out2 →
  feed_tokens emoji [] (ts1 ++ ts2) = Return (out1 ++ out2)
  ∧ get_data (out1 ++ out2) = get_data out1 +:+ get_data out2.
Proof.
  intros H1 H2. split; [|apply join_app].
  rewrite feed_tokens_app, H1. simpl. by rewrite feed_tokens_append, H2.
Qed.

Lemma transcode_concat_witness :
  feed_tokens Fixtures.emoji []
    ([StartTag "h2" [("id", Some "t")]; Data "Title"; EndTag "h2"]
     ++ [StartTag "p" []; Data "text"; EndTag "p"])
  = Return (["<b>"; "Title"; "</b>"] ++ ["text"])
  ∧ get_data (["<b>"; "Title"; "</b>"] ++ ["text"])
    = get_data ["<b>"; "Title"; "</b>"] +:+ get_data ["text"].
Proof.
  exact (transcode_concat Fixtures.emoji
           [StartTag "h2" [("id", Some "t")]; Data "Title"; EndTag "h2"]
           [StartTag "p" []; Data "text"; EndTag "p"]
           ["<b>"; "Title"; "</b>"] ["text"] eq_refl eq_refl).
Defined.

Lemma class_is_emoji (attrs : list attr) :
  get_attr (tag_attrs_of attrs) "class" "" = Some "emoji"
  ↔ attribute "class" attrs = Some (Some "emoji").
Proof.
  rewrite get_attr_attribute by apply class_useful.
  destruct (attribute "class" attrs) as [[c|]|]; simpl;
    split; intros H; try done; congruence.
Qed.

(** The start handler on a tag that is neither kept nor retagned, the
    emoji image apart: nothing is emitted. *)
Lemma handle_starttag_dropped (emoji : gmap string string)
    (fed : list string) (tag : string) (attrs : list attr) :
  output_tag tag = None →
  ¬ (tag = "img" ∧ attribute "class" attrs = Some (Some "emoji")) →
  handle_starttag emoji fed tag attrs = Return fed.
Proof.
  intros Hp Hemoji. unfold handle_starttag. rewrite tag_decision, Hp. simpl.
  rewrite decide_False; [done|].
  intros [-> Hc]. apply Hemoji. split; [done|]. by apply class_is_emoji.
Qed.

(** X4.  An element whose tag is neither allow-listed nor mapped is
    unwrapped: its start and end tag emit nothing, whatever its
    attributes, and its content comes out as if the tags were not there.
    An image that is not an emoji is such an element. *)
Theorem unsupported_element_unwrapped (emoji : gmap string string)
    (tag : string) (attrs : list attr) (inner : list token) :
  output_tag tag = None →
  ¬ (tag = "img" ∧ attribute "class" attrs = Some (Some "emoji")) →
  feed_tokens emoji [] (StartTag tag attrs :: inner ++ [EndTag tag])
  = feed_tokens emoji [] inner.
Proof.
  intros Hp Hemoji. cbn [feed_tokens dispatch].
  rewrite handle_starttag_dropped by done. simpl.
  rewrite feed_tokens_app.
  destruct (feed_tokens emoji [] inner) as [out|e]; simpl; [|done].
  by rewrite handle_endtag_decision, Hp.
Qed.

Lemma unsupported_element_unwrapped_witness :
  feed_tokens Fixtures.emoji []
    (StartTag "div" [("class", Some "emoji"); ("href", None)]
       :: [Data "a "; StartTag "img" [("src", Some "u")]; Data "b"]
       ++ [EndTag "div"])
  = feed_tokens Fixtures.emoji []
      [Data "a "; StartTag "img" [("src", Some "u")]; Data "b"].
Proof.
  apply (unsupported_element_unwrapped Fixtures.emoji "div").
  - reflexivity.
  - intros [H _]. discriminate H.
Defined.

(** X5.  Of a kept or retagged element other than an anchor no attribute
    reaches the output, and none can make the handler fail: the start tag
    emitted is the bare output tag. *)
Theorem attributes_dropped (emoji : gmap string string) (fed : list string)
    (tag p : string) (attrs : list attr) :
  output_tag tag = Some p →
  tag ≠ "a" →
  handle_starttag emoji fed tag attrs = Return (fed ++ ["<" +:+ p +:+ ">"]).
Proof.
  intros Hp Hna. unfold handle_starttag. rewrite tag_decision, Hp. simpl.
  rewrite (decide_False (P := tag = "a")) by done. simpl.
  rewrite append_nil_r.
  rewrite decide_False; [done|]. by intros [-> _].
Qed.

Lemma attributes_dropped_witness :
  handle_starttag Fixtures.emoji ["x"] "blockquote"
    [("href", None); ("class", Some "emoji"); ("title", Some ":cow:")]
  = Return (["x"] ++ ["<" +:+ "i" +:+ ">"]).
Proof.
  apply (attributes_dropped Fixtures.emoji ["x"] "blockquote" "i").
  - reflexivity.
  - discriminate.
Defined.

Lemma attribute_last (name : string) (v : option string)
    (pre post : list attr) :
  (∀ v', (name, v') ∉ post) →
  attribute name (pre ++ (name, v) :: post) = Some v.
Proof.
  intros Hpost. unfold attribute.
  rewrite filter_app, filter_cons. simpl. rewrite decide_True by done.
  replace (filter (λ a : attr, a.1 = name) post) with (@nil attr).
  - by rewrite last_snoc.
  - symmetry. induction post as [|[k x] post IH]; [done|].
    rewrite filter_cons. simpl. destruct (decide (k = name)) as [->|Hne].
    + exfalso. apply (Hpost x). by left.
    + apply IH. intros v' Hin. apply (Hpost v'). by right.
Qed.

(** X6.  Of several href attributes of an anchor the last one counts: its
    value becomes the href of the emitted tag, and when it has no value
    the handler raises a TypeError, whatever the earlier ones are. *)
Theorem anchor_last_href (emoji : gmap string string) (fed : list string)
    (pre post : list attr) (v : option string) :
  (∀ v', ("href", v') ∉ post) →
  handle_starttag emoji fed "a" (pre ++ ("href", v) :: post)
  = match v with
    | Some url => Return (fed ++ ["<a href=" +:+ quoted url +:+ ">"])
    | None => Raise TypeError
    end.
Proof.
  intros Hpost. rewrite handle_starttag_a, attribute_last by done.
  by destruct v.
Qed.

Lemma anchor_last_href_witness :
  handle_starttag Fixtures.emoji [] "a"
    ([("href", Some "first")] ++ ("href", None) :: [("title", Some "t")])
  = Raise TypeError.
Proof.
  apply (anchor_last_href Fixtures.emoji [] [("href", Some "first")]
           [("title", Some "t")] None).
  intros v' Hin. apply elem_of_cons in Hin as [Hin|Hin];
    [discriminate Hin | by apply elem_of_nil in Hin].
Defined.

(** ** The header *)

Lemma escape_char_plain (c x : ascii) :
  c = "<"%char ∨ c = ">"%char ∨ c = dquote ∨ c = "'"%char →
  has_char c (escape_char x) = false.
Proof.
  intros Hc. unfold escape_char.
  destruct (Ascii.eqb_spec x "&"); [by destruct Hc as [->|[->|[->| ->]]]|].
  destruct (Ascii.eqb_spec x "<"); [by destruct Hc as [->|[->|[->| ->]]]|].
  destruct (Ascii.eqb_spec x ">"); [by destruct Hc as [->|[->|[->| ->]]]|].
  destruct (Ascii.eqb_spec x dquote); [by destruct Hc as [->|[->|[->| ->]]]|].
  destruct (Ascii.eqb_spec x "'"); [by destruct Hc as [->|[->|[->| ->]]]|].
  simpl. rewrite orb_false_r. apply Ascii.eqb_neq.
  destruct Hc as [->|[->|[->| ->]]]; done.
Qed.

Lemma escape_plain (c : ascii) (s : string) :
  c = "<"%char ∨ c = ">"%char ∨ c = dquote ∨ c = "'"%char →
  has_char c (escape s) = false.
Proof.
  intros Hc. induction s as [|x s IH]; [done|].
  simpl escape. by rewrite has_char_app, escape_char_plain, IH.
Qed.

Section MoreArticleProperties.

Variable emoji : gmap string string.
Variable lex : string -> list token * option exn.
Variable MM : Type.
Variable parseMentions : MM -> string -> string -> outcome unit * MM.

Local Abbreviation world := (newsArticle.world MM).
Local Abbreviation self := (newsArticle.self MM).
Local Abbreviation console := (newsArticle.console MM).
Local Abbreviation content := (newsArticle.content MM).
Local Abbreviation broken := (newsArticle.broken MM).
Local Abbreviation raw_html := (newsArticle.raw_html MM).
Local Abbreviation topic := (newsArticle.topic MM).
Local Abbreviation mention_manager := (newsArticle.mention_manager MM).
Local Abbreviation makeHeader := (newsArticle.makeHeader MM).
Local Abbreviation transcode := (newsArticle.transcode emoji lex).
Local Abbreviation parseMessage_try :=
  (newsArticle.parseMessage_try emoji lex MM parseMentions).
Local Abbreviation getAsHtml :=
  (newsArticle.getAsHtml emoji lex MM parseMentions).

(** X8.  The header is one code element around an escaped text: no field
    of the article, whatever characters it holds, puts an angle bracket
    or a quote into it, so no field can open or close a tag of the
    message.  Building it changes nothing of the article but the cached
    classification. *)
Theorem header_escaped (w : world) :
  ∃ body w1,
    makeHeader w
    = (Return ("<code>" +:+ body +:+ "</code>" +:+ newsArticle.LF
               +:+ newsArticle.LF), w1)
    ∧ has_char "<" body = false
    ∧ has_char ">" body = false
    ∧ has_char dquote body = false
    ∧ has_char "'" body = false
    ∧ w1 = (newsArticle.isPlusOne MM w).2.
Proof.
  destruct w as [[u d tp sj dt rm rh mm br ct ipo] out].
  unfold newsArticle.makeHeader, newsArticle.isPlusOne, newsArticle.bind,
    newsArticle.get, newsArticle.modify, newsArticle.ret. simpl.
  destruct ipo as [b|]; simpl; eexists _, _;
    (split; [reflexivity|]);
    repeat split; apply escape_plain; tauto.
Qed.

(** What a content request does on an article not yet rendered. *)
Lemma getAsHtml_unparsed (w : world) :
  content (self w) = None → broken (self w) = false →
  getAsHtml w
  = match parseMessage_try w with
    | (Return _, w') => (Return (content (self w')), w')
    | (Raise e, w') =>
        if is_Exception e
        then (Return (content (self w')),
              newsArticle.mutate MM (newsArticle.set_broken MM true)
                (newsArticle.mkWorld MM (self w') (console w' ++ [e])))
        else (Raise e, w')
    end.
Proof.
  intros Hc Hb.
  unfold newsArticle.getAsHtml, newsArticle.parseMessage, newsArticle.bind,
    newsArticle.get, newsArticle.ret, newsArticle.try_except. simpl.
  rewrite Hc, Hb.
  destruct (parseMessage_try w) as [[[]|e] w']; [done|].
  destruct (is_Exception e); [|done].
  by destruct w' as [[] ?].
Qed.

(** What the body of the [try] does, step by step. *)
Lemma parseMessage_try_run (w : world) :
  ∃ hdr w1,
    makeHeader w = (Return hdr, w1)
    ∧ raw_html (self w1) = raw_html (self w)
    ∧ topic (self w1) = topic (self w)
    ∧ mention_manager (self w1) = mention_manager (self w)
    ∧ content (self w1) = content (self w)
    ∧ broken (self w1) = broken (self w)
    ∧ console w1 = console w
    ∧ parseMessage_try w
      = match transcode (raw_html (self w)) with
        | Raise e => (Raise e, w1)
        | Return c =>
            let '(r, mm) :=
              parseMentions (mention_manager (self w)) c (topic (self w)) in
            let w2 := newsArticle.mutate MM
                        (newsArticle.set_mention_manager MM mm) w1 in
            match r with
            | Raise e => (Raise e, w2)
            | Return _ =>
                (Return tt,
                 newsArticle.mutate MM
                   (newsArticle.set_content MM (Some (hdr +:+ c))) w2)
            end
        end.
Proof.
  destruct w as [[u d tp sj dt rm rh mm br ct ipo] out].
  unfold newsArticle.parseMessage_try, newsArticle.makeHeader,
    newsArticle.isPlusOne, newsArticle.bind, newsArticle.get,
    newsArticle.lift, newsArticle.call_parseMentions, newsArticle.modify,
    newsArticle.ret, newsArticle.mutate.
  destruct ipo as [b|]; simpl; eexists _, _;
    (split; [reflexivity|]); repeat (split; [reflexivity|]);
    (destruct (newsArticle.transcode emoji lex rh) as [c|e]; simpl; [|done]);
    by destruct (parseMentions mm c tp) as [[[]|e] mm'].
Qed.

(** X9.  When the body transcodes and the mention manager returns, the
    first content request returns the header followed by the transcoded
    body and caches it; the mention manager has been called once, with
    the transcoded body and the topic; nothing is printed and the
    article is not broken. *)
Theorem render_success (w : world) (c : string) (mm' : MM) :
  content (self w) = None →
  broken (self w) = false →
  transcode (raw_html (self w)) = Return c →
  parseMentions (mention_manager (self w)) c (topic (self w))
  = (Return tt, mm') →
  ∃ hdr w',
    getAsHtml w = (Return (Some (hdr +:+ c)), w')
    ∧ (makeHeader w).1 = Return hdr
    ∧ content (self w') = Some (hdr +:+ c)
    ∧ mention_manager (self w') = mm'
    ∧ broken (self w') = false
    ∧ raw_html (self w') = raw_html (self w)
    ∧ console w' = console w.
Proof.
  intros Hc Hb Htr Hmm.
  destruct (parseMessage_try_run w)
    as (hdr & w1 & Hhdr & Hrh & Htp & Hm & Hct & Hbr & Hout & Htry).
  rewrite Htr, Hmm in Htry.
  rewrite getAsHtml_unparsed, Htry by done.
  exists hdr. eexists. split; [reflexivity|].
  rewrite Hhdr. destruct w1 as [[] ?]. simpl in *.
  repeat split; congruence.
Qed.

(** X10.  An exception outside the class Exception is not caught: the
    content request raises it, the article is neither broken nor given a
    content and nothing is printed, so a later request renders anew. *)
Theorem interrupt_not_swallowed (w w1 : world) (e : exn) :
  content (self w) = None →
  broken (self w) = false →
  parseMessage_try w = (Raise e, w1) →
  is_Exception e = false →
  getAsHtml w = (Raise e, w1)
  ∧ content (self w1) = None
  ∧ broken (self w1) = false
  ∧ console w1 = console w.
Proof.
  intros Hc Hb Htry He.
  pose proof (parseMessage_try_frame emoji lex MM parseMentions w) as Hframe.
  rewrite Htry in Hframe. destruct Hframe as (Hb1 & Hout1 & Hc1).
  rewrite getAsHtml_unparsed, Htry, He by done.
  repeat split; congruence.
Qed.


End MoreArticleProperties.

Lemma render_success_witness :
  let w := Fixtures.world "+1" "hi" in
  ∃ hdr w',
    newsArticle.getAsHtml Fixtures.emoji Fixtures.lex nat Fixtures.parseMentions w
    = (Return (Some (hdr +:+ "<b>hi&amp;</b>")), w')
    ∧ newsArticle.mention_manager nat (newsArticle.self nat w') = 1%nat.
Proof.
  intros w.
  destruct (render_success Fixtures.emoji Fixtures.lex nat
              Fixtures.parseMentions w "<b>hi&amp;</b>" 1%nat
              eq_refl eq_refl eq_refl eq_refl)
    as (hdr & w' & Hrun & _ & _ & Hmm & _).
  exists hdr, w'. split; [exact Hrun | exact Hmm].
Defined.

Lemma interrupt_not_swallowed_witness :
  let w := Fixtures.world "+1" "hi" in
  ∃ w1,
    newsArticle.getAsHtml Fixtures.emoji Fixtures.lex nat More.interrupted w
    = (Raise (NonError "KeyboardInterrupt"), w1)
    ∧ newsArticle.broken nat (newsArticle.self nat w1) = false.
Proof.
  intros w. eexists.
  pose proof (interrupt_not_swallowed Fixtures.emoji Fixtures.lex nat
                More.interrupted w
                (newsArticle.mutate nat
                   (newsArticle.set_mention_manager nat 1%nat)
                   (newsArticle.mutate nat
                      (newsArticle.set_is_plus_one nat (Some true)) w))
                (NonError "KeyboardInterrupt")
                eq_refl eq_refl eq_refl eq_refl) as (H1 & _ & H3 & _).
  split; [exact H1 | exact H3].
Defined.


(** ** [parseLinks]: no placeholder, and the HTML it uses up *)

Lemma match_here_no_bang (c : ascii) (s : string) :
  Ascii.eqb c "!" = false → match_here (String c s) = None.
Proof. intros Hc. unfold match_here. destruct s; by rewrite ?Hc. Qed.

Lemma finditer_no_bang (s : string) (pos : Z) :
  has_char "!" s = false → finditer_from 0 pos s = [].
Proof.
  revert pos; induction s as [|c s IH]; intros pos; [done|].
  simpl has_char. intros [Hc Hs]%orb_false_elim.
  cbn [finditer_from]. rewrite match_here_no_bang by done. by apply IH.
Qed.

(** The HTML left after [n] turns of the loop. *)
Fixpoint rest_after (n : nat) (html : string) : string :=
  match n with
  | O => html
  | S n => rest_after n (pop html).2
  end.

Lemma image_sources_rest_after (n : nat) (html : string) :
  (n ≤ length (image_sources html))%nat →
  image_sources (rest_after n html) = drop n (image_sources html).
Proof.
  revert html; induction n as [|n IH]; intros html Hle; [done|].
  destruct (image_sources html) as [|u us] eqn:Hsrc; [simpl in Hle; lia|].
  apply pop_image_source in Hsrc as [_ Hus].
  simpl in *. rewrite IH; rewrite Hus; [done | lia].
Qed.

Section MoreLinkProperties.

Variable MM : Type.

Local Abbreviation world := (newsArticle.world MM).
Local Abbreviation raw_html_of :=
  (fun w : world => newsArticle.raw_html MM (newsArticle.self MM w)).
Local Abbreviation parseLinks := (newsArticle.parseLinks MM).
Local Abbreviation with_html :=
  (fun (html : string) (w : world) =>
     newsArticle.mutate MM (newsArticle.set_raw_html MM html) w).

Lemma with_html_same (w : world) : with_html (raw_html_of w) w = w.
Proof. by destruct w as [[] ?]. Qed.

Lemma with_html_twice (h1 h2 : string) (w : world) :
  with_html h2 (with_html h1 w) = with_html h2 w.
Proof. by destruct w as [[] ?]. Qed.

Lemma parseLinks_loop_world (msg : string) (ms : list re_match) :
  ∀ (acc : string * Z * Z) (w : world),
    (newsArticle.parseLinks_loop MM msg acc ms w).2
    = with_html (rest_after (length ms) (raw_html_of w)) w.
Proof.
  induction ms as [|m ms IH]; intros acc w.
  - simpl. by rewrite with_html_same.
  - cbn [newsArticle.parseLinks_loop]. unfold newsArticle.bind.
    rewrite parseLinks_iter_run, IH. cbn [length rest_after].
    by rewrite with_html_twice.
Qed.

Lemma parseLinks_world (msg : string) (w : world) :
  (parseLinks msg w).2
  = with_html (rest_after (length (finditer msg)) (raw_html_of w)) w.
Proof.
  unfold newsArticle.parseLinks, newsArticle.bind.
  rewrite <- (parseLinks_loop_world msg (finditer msg) ("", 1, 0) w).
  destruct (parseLinks_loop_run MM msg (finditer msg) ("", 1, 0) w)
    as [w' ->].
  by destruct (assemble _ _ _ _) as [[? ?] ?].
Qed.

(** X12.  A markdown text with no placeholder comes back as it is, and the
    article is left untouched; a text with no exclamation mark is such a
    text. *)
Theorem parseLinks_no_placeholder (msg : string) (w : world) :
  (has_char "!" msg = false → finditer msg = [])
  ∧ (finditer msg = [] → parseLinks msg w = (Return msg, w)).
Proof.
  split; [apply finditer_no_bang|].
  intros Hnone. unfold newsArticle.parseLinks, newsArticle.bind.
  rewrite Hnone. simpl. unfold newsArticle.ret.
  by rewrite slice_from_nonneg.
Qed.

(** X13.  [parseLinks] uses up the HTML of the article: with at least as
    many image sources as placeholders, what it leaves in [raw_html] holds
    the image sources that were not used, the first n being cut away with
    all that stood before them; nothing else of the article changes. *)
Theorem parseLinks_consumes_html (msg : string) (w : world) :
  (length (finditer msg) ≤ length (image_sources (raw_html_of w)))%nat →
  ∃ html',
    (parseLinks msg w).2 = with_html html' w
    ∧ image_sources html'
      = drop (length (finditer msg)) (image_sources (raw_html_of w)).
Proof.
  intros Hlen. eexists. split; [apply parseLinks_world|].
  by apply image_sources_rest_after.
Qed.

End MoreLinkProperties.

Lemma parseLinks_no_placeholder_witness :
  newsArticle.parseLinks nat "wow! [a](b) and ![c] (d)"
    (Fixtures.world "" (Fixtures.img "X"))
  = (Return "wow! [a](b) and ![c] (d)", Fixtures.world "" (Fixtures.img "X")).
Proof.
  exact (proj2 (parseLinks_no_placeholder nat "wow! [a](b) and ![c] (d)"
                  (Fixtures.world "" (Fixtures.img "X"))) eq_refl).
Defined.

Lemma parseLinks_consumes_html_witness :
  let html := Fixtures.img "X" +:+ "<p>" +:+ Fixtures.img "Y" +:+ "</p>" in
  ∃ html',
    (newsArticle.parseLinks nat "see ![one](upload://1)"
       (Fixtures.world "" html)).2
    = newsArticle.mutate nat (newsArticle.set_raw_html nat html')
        (Fixtures.world "" html)
    ∧ image_sources html' = ["Y"].
Proof.
  intros html.
  destruct (parseLinks_consumes_html nat "see ![one](upload://1)"
              (Fixtures.world "" html)) as (html' & Hw & Hsrc).
  - vm_compute. lia.
  - exists html'. split; [exact Hw | exact Hsrc].
Defined.

(** ** [newsReader] *)

Import newsReader.

Lemma get_set_same (topic : string) (v : Z) (groups : groups_t) :
  get_item (set_item topic v groups) topic = Some v.
Proof.
  induction groups as [|[t old] groups IH]; simpl.
  - by rewrite decide_True.
  - destruct (decide (t = topic)) as [->|Hne]; simpl.
    + by rewrite decide_True.
    + by rewrite decide_False.
Qed.

Lemma get_set_other (topic other : string) (v : Z) (groups : groups_t) :
  topic ≠ other →
  get_item (set_item topic v groups) other = get_item groups other.
Proof.
  intros Hne. induction groups as [|[t old] groups IH]; simpl.
  - by rewrite decide_False.
  - destruct (decide (t = topic)) as [->|Hne']; simpl.
    + by rewrite !decide_False.
    + by rewrite IH.
Qed.

Lemma set_item_same (topic : string) (v : Z) (groups : groups_t) :
  get_item groups topic = Some v → set_item topic v groups = groups.
Proof.
  induction groups as [|[t old] groups IH]; simpl; [done|].
  destruct (decide (t = topic)) as [->|Hne].
  - by intros [= ->].
  - intros Hget. by rewrite IH.
Qed.

Lemma set_item_keys (topic : string) (v : Z) (groups : groups_t) :
  is_Some (get_item groups topic) →
  (set_item topic v groups).*1 = groups.*1.
Proof.
  induction groups as [|[t old] groups IH]; simpl.
  - by intros [? ?].
  - destruct (decide (t = topic)) as [->|Hne]; simpl; [done|].
    intros Hget. f_equal. by apply IH.
Qed.

Lemma validTopic_keys (groups : groups_t) (topic : string) :
  validTopic groups topic = true ↔ topic ∈ groups.*1.
Proof.
  unfold validTopic. rewrite bool_decide_eq_true.
  induction groups as [|[t v] groups IH]; simpl.
  - split; [by intros [? ?] | by intros ?%elem_of_nil].
  - rewrite elem_of_cons. destruct (decide (t = topic)) as [->|Hne].
    + split; [by left | by eexists].
    + rewrite IH. split; [by right | by intros [?|?]].
Qed.

Lemma closest_keys (groups groups' : groups_t) (topic : string) :
  groups'.*1 = groups.*1 → closest groups' topic = closest groups topic.
Proof.
  revert groups'; induction groups as [|[t v] groups IH];
    intros [|[t' v'] groups']; simpl; try done.
  intros [= -> Hkeys]. by rewrite (IH groups').
Qed.

Section ReaderProperties.

Variable conn_group : string -> outcome (Z * Z).
Variable conn_article : Z -> outcome mime.

Local Abbreviation fetch_loop := (newsReader.fetch_loop conn_article).
Local Abbreviation updateTopic :=
  (newsReader.updateTopic conn_group conn_article).

Lemma fetch_loop_all (arts : Z → mime) (count : nat) :
  ∀ (start : Z) (res : list string),
    (∀ n, start ≤ n < start + Z.of_nat count →
          conn_article n = Return (arts n)) →
    fetch_loop start count res
    = Return (res ++ ((λ n, message (arts n)) <$> seqZ start (Z.of_nat count))).
Proof.
  induction count as [|count IH]; intros start res Hart.
  - simpl. by rewrite app_nil_r.
  - cbn [newsReader.fetch_loop]. rewrite Hart by lia. simpl.
    rewrite IH by (intros n Hn; apply Hart; lia).
    rewrite (seqZ_cons start) by lia. rewrite fmap_cons.
    replace (Z.pred (Z.of_nat (S count))) with (Z.of_nat count) by lia.
    replace (Z.succ start) with (start + 1) by lia.
    by rewrite <- app_assoc.
Qed.

Lemma fetch_loop_fails (arts : Z → mime) (e : exn) (count : nat) :
  ∀ (start k : Z) (res : list string),
    start ≤ k < start + Z.of_nat count →
    (∀ n, start ≤ n < k → conn_article n = Return (arts n)) →
    conn_article k = Raise e →
    fetch_loop start count res = Raise e.
Proof.
  induction count as [|count IH]; intros start k res Hk Hart Hfail; [lia|].
  cbn [newsReader.fetch_loop].
  destruct (decide (k = start)) as [->|Hne].
  - by rewrite Hfail.
  - rewrite Hart by lia. simpl.
    apply (IH (start + 1) k); [lia | | done].
    intros n Hn. apply Hart. lia.
Qed.

(** X14.  On a known topic whose new articles can all be fetched,
    [updateTopic] returns the text of each article numbered from the
    later of the first article on the server and the one after the last
    seen, up to the server's last, in ascending order, and records the
    server's last as the last seen. *)
Theorem updateTopic_delivers_new (groups : groups_t) (topic : string)
    (first last seen : Z) (arts : Z → mime) :
  conn_group topic = Return (first, last) →
  get_item groups topic = Some seen →
  (∀ n, Z.max (seen + 1) first ≤ n ≤ last →
        conn_article n = Return (arts n)) →
  let start := Z.max (seen + 1) first in
  updateTopic groups topic
  = (Return ((λ n, message (arts n)) <$> seqZ start (last - start + 1)),
     set_item topic last groups)
  ∧ get_item (set_item topic last groups) topic = Some last.
Proof.
  intros Hgroup Hseen Hart start. split; [|apply get_set_same].
  unfold newsReader.updateTopic. rewrite Hgroup, Hseen. fold start.
  rewrite (fetch_loop_all arts) by (intros n Hn; apply Hart; lia).
  simpl. do 3 f_equal.
  destruct (decide (start ≤ last)).
  - by rewrite Z2Nat.id by lia.
  - replace (Z.to_nat (last - start + 1)) with O by lia.
    by rewrite !seqZ_nil by lia.
Qed.

(** X15.  With nothing new on the server, its last article being no later
    than the last seen, [updateTopic] fetches no article and returns the
    empty list; the last seen becomes the server's last, so the
    dictionary is unchanged when the two were equal. *)
Theorem updateTopic_nothing_new (groups : groups_t) (topic : string)
    (first last seen : Z) :
  conn_group topic = Return (first, last) →
  get_item groups topic = Some seen →
  last ≤ seen →
  updateTopic groups topic = (Return [], set_item topic last groups)
  ∧ (last = seen → set_item topic last groups = groups).
Proof.
  intros Hgroup Hseen Hle. split.
  - unfold newsReader.updateTopic. rewrite Hgroup, Hseen.
    replace (Z.to_nat _) with O by lia. done.
  - intros ->. by apply set_item_same.
Qed.

(** X16.  When an article cannot be fetched, [updateTopic] raises that
    error and leaves the dictionary as it was: the articles fetched
    before the failing one are dropped with it and none is marked seen,
    so the next call fetches them again. *)
Theorem updateTopic_failure_keeps_marker (groups : groups_t) (topic : string)
    (first last seen k : Z) (arts : Z → mime) (e : exn) :
  conn_group topic = Return (first, last) →
  get_item groups topic = Some seen →
  Z.max (seen + 1) first ≤ k ≤ last →
  (∀ n, Z.max (seen + 1) first ≤ n < k → conn_article n = Return (arts n)) →
  conn_article k = Raise e →
  updateTopic groups topic = (Raise e, groups).
Proof.
  intros Hgroup Hseen Hk Hart Hfail.
  unfold newsReader.updateTopic. rewrite Hgroup, Hseen.
  by rewrite (fetch_loop_fails arts e _ _ k) by (done || lia).
Qed.

(** X17.  [updateTopic] never returns on a topic [validTopic] rejects: it
    raises, the error of the server or the KeyError of the dictionary,
    and the dictionary is unchanged. *)
Theorem updateTopic_invalid_topic (groups : groups_t) (topic : string) :
  validTopic groups topic = false →
  ∃ e, updateTopic groups topic = (Raise e, groups).
Proof.
  unfold validTopic. rewrite bool_decide_eq_false.
  intros Hnone. unfold newsReader.updateTopic.
  destruct (conn_group topic) as [[first last]|e]; [|by exists e].
  destruct (get_item groups topic) as [seen|]; [|by eexists].
  exfalso. apply Hnone. by eexists.
Qed.

(** X18.  [updateTopic] adds and removes no group and keeps the order of
    the groups, whether it returns or raises: [validTopic] and [closest]
    answer after it as they did before. *)
Theorem updateTopic_keeps_groups (groups : groups_t) (topic other : string) :
  let groups' := (updateTopic groups topic).2 in
  groups'.*1 = groups.*1
  ∧ validTopic groups' other = validTopic groups other
  ∧ closest groups' other = closest groups other.
Proof.
  intros groups'.
  assert (Hkeys : groups'.*1 = groups.*1).
  { subst groups'. unfold newsReader.updateTopic.
    destruct (conn_group topic) as [[first last]|e]; [|done].
    destruct (get_item groups topic) as [seen|] eqn:Hseen; [|done].
    destruct (newsReader.fetch_loop _ _ _ _); [|done].
    simpl. apply set_item_keys. by rewrite Hseen. }
  split; [done|]. split; [|by apply closest_keys].
  apply eq_true_iff_eq. by rewrite !validTopic_keys, Hkeys.
Qed.

End ReaderProperties.

Lemma updateTopic_delivers_new_witness :
  newsReader.updateTopic server_group (server_article false) server_groups
    "metu.ceng.test"
  = (Return ((λ n, "From: None" +:+ newsArticle.CRLF
                   +:+ "Newsgroups: None" +:+ newsArticle.CRLF
                   +:+ "Subject: post " +:+ newsArticle.str_int n
                   +:+ newsArticle.CRLF
                   +:+ "Date: None" +:+ newsArticle.CRLF +:+ "body")
               <$> [3; 4; 5]),
     [("metu.ceng.announce", 7); ("metu.ceng.test", 5)]).
Proof.
  refine (proj1 (updateTopic_delivers_new server_group (server_article false)
                   server_groups "metu.ceng.test" 1 5 2
                   (λ n, mkMime
                           (fun h => if decide (h = "Subject")
                                     then Some ("post " +:+ newsArticle.str_int n)
                                     else None)
                           [("multipart/mixed", ""); ("text/plain", "body")])
                   eq_refl eq_refl _)).
  intros n _. reflexivity.
Defined.

Lemma updateTopic_nothing_new_witness :
  newsReader.updateTopic server_group (server_article true)
    [("metu.ceng.test", 5)] "metu.ceng.test"
  = (Return [], [("metu.ceng.test", 5)]).
Proof.
  refine (proj1 (updateTopic_nothing_new server_group (server_article true)
                   [("metu.ceng.test", 5)] "metu.ceng.test" 1 5 5
                   eq_refl eq_refl _)).
  lia.
Defined.

Lemma updateTopic_failure_keeps_marker_witness :
  newsReader.updateTopic server_group (server_article true) server_groups
    "metu.ceng.test"
  = (Raise (OtherError "NNTPTemporaryError"), server_groups).
Proof.
  refine (updateTopic_failure_keeps_marker server_group (server_article true)
            server_groups "metu.ceng.test" 1 5 2 4
            (λ n, mkMime
                    (fun h => if decide (h = "Subject")
                              then Some ("post " +:+ newsArticle.str_int n)
                              else None)
                    [("multipart/mixed", ""); ("text/plain", "body")])
            _ eq_refl eq_refl _ _ eq_refl).
  - simpl. lia.
  - simpl. intros n Hn. unfold server_article.
    replace (n =? 4) with false by (symmetry; apply Z.eqb_neq; lia).
    reflexivity.
Defined.

Lemma updateTopic_invalid_topic_witness :
  ∃ e, newsReader.updateTopic server_group (server_article false)
         server_groups "metu.ceng.nowhere"
       = (Raise e, server_groups).
Proof.
  exact (updateTopic_invalid_topic server_group (server_article false)
           server_groups "metu.ceng.nowhere" eq_refl).
Defined.

Lemma substring_sdrop_split (n : nat) (s : string) :
  s = String.substring 0 n s +:+ sdrop n s.
Proof.
  revert s; induction n as [|n IH]; intros [|c s]; simpl; try done.
  rewrite append_cons. by rewrite <- IH.
Qed.

Lemma endswith_app (t suffix : string) :
  endswith t suffix = true ↔ ∃ pre, t = pre +:+ suffix.
Proof.
  unfold endswith. rewrite andb_true_iff, Nat.leb_le, String.eqb_eq. split.
  - intros [Hle Hsub].
    exists (String.substring 0 (String.length t - String.length suffix) t).
    rewrite substring_sdrop in Hsub.
    rewrite substring_all in Hsub by (rewrite length_sdrop; lia).
    pose proof (substring_sdrop_split
                  (String.length t - String.length suffix) t) as Hsplit.
    by rewrite Hsub in Hsplit.
  - intros [pre ->]. rewrite length_append. split; [lia|].
    replace (String.length pre + String.length suffix - String.length suffix)%nat
      with (String.length pre) by lia.
    rewrite substring_sdrop, sdrop_app. by apply substring_all.
Qed.

(** X19.  [closest] returns the first group, in the order of the
    dictionary, whose name ends with the text asked for: a group that
    [validTopic] accepts, no group before it ending so; it returns
    nothing exactly when no group ends with the text. *)
Theorem closest_first_match (groups : groups_t) (topic : string) :
  match closest groups topic with
  | Some t =>
      validTopic groups t = true
      ∧ (∃ pre, t = pre +:+ topic)
      ∧ ∃ l1 v l2, groups = l1 ++ (t, v) :: l2
                   ∧ ∀ x, x ∈ l1 → ¬ ∃ pre, x.1 = pre +:+ topic
  | None =>
      ∀ t, validTopic groups t = true → ¬ ∃ pre, t = pre +:+ topic
  end.
Proof.
  induction groups as [|[t v] groups IH]; simpl.
  - intros t Ht. apply validTopic_keys in Ht. by apply elem_of_nil in Ht.
  - destruct (endswith t topic) eqn:Hend.
    + split; [apply validTopic_keys; by left|].
      split; [by apply endswith_app|].
      exists [], v, groups. split; [done|]. by intros x ?%elem_of_nil.
    + assert (Hnot : ¬ ∃ pre, t = pre +:+ topic).
      { intros H%endswith_app. congruence. }
      destruct (closest groups topic) as [t'|].
      * destruct IH as (Hvalid & Hsuffix & l1 & v' & l2 & -> & Hl1).
        split; [apply validTopic_keys; right; by apply validTopic_keys|].
        split; [done|].
        exists ((t, v) :: l1), v', l2. split; [done|].
        intros x [->|Hx]%elem_of_cons; [done | by apply Hl1].
      * intros t' Ht'. apply validTopic_keys in Ht'. simpl in Ht'.
        apply elem_of_cons in Ht' as [->|Ht']; [done|].
        apply IH. by apply validTopic_keys.
Qed.

Lemma init_groups_lookup (l : list (string * Z)) :
  ∀ (acc : groups_t), ∃ groups,
    init_groups acc ((λ x, (x.1, Return x.2)) <$> l) = Return groups
    ∧ ∀ g, get_item groups g
           = match last (filter (λ x, x.1 = g) l) with
             | Some x => Some x.2
             | None => get_item acc g
             end.
Proof.
  induction l as [|[k v] l IH]; intros acc.
  - exists acc. by split.
  - simpl. destruct (IH (set_item k v acc)) as (groups & Hrun & Hget).
    exists groups. split; [done|]. intros g. rewrite Hget, filter_cons. simpl.
    destruct (decide (k = g)) as [->|Hne].
    + rewrite last_cons. destruct (last _); [done|]. apply get_set_same.
    + destruct (last _); [done|]. by apply get_set_other.
Qed.

(** X20.  The dictionary built at start-up holds, for each group of the
    server's list, the last number given for it, later entries of the
    list replacing earlier ones, and nothing for any other name; and when
    the number of some entry cannot be read as an integer, start-up
    raises that error and there is no reader. *)
Theorem init_last_entry_wins (l : list (string * Z)) :
  (∃ groups,
      init (Return ((λ x, (x.1, Return x.2)) <$> l)) = Return groups
      ∧ ∀ g, get_item groups g = snd <$> last (filter (λ x, x.1 = g) l))
  ∧ (∀ g e rest,
        init (Return (((λ x, (x.1, Return x.2)) <$> l) ++ (g, Raise e) :: rest))
        = Raise e).
Proof.
  split.
  - destruct (init_groups_lookup l []) as (groups & Hrun & Hget).
    exists groups. split; [done|]. intros g. rewrite Hget.
    by destruct (last _).
  - intros g e rest. unfold init. simpl. generalize (@nil (string * Z)).
    induction l as [|[k v] l IH]; intros acc; simpl; [done | apply IH].
Qed.

Lemma walk_plain_skip (msg : string) (pre rest : list (string * string)) :
  (∀ p, p ∈ pre → p.1 ≠ "text/plain") →
  walk_plain msg (pre ++ rest) = walk_plain msg rest.
Proof.
  induction pre as [|[ct body] pre IH]; intros Hpre; [done|]. simpl.
  rewrite decide_False by (apply (Hpre (ct, body)); by left).
  apply IH. intros p Hp. apply Hpre. by right.
Qed.

(** X21.  The text made of a message is its four header lines, a missing
    field printed as None, followed by the content of its first part of
    type text/plain and of no other part; a message with no such part
    gives the header lines alone. *)
Theorem message_first_plain (h : string → option string)
    (pre post : list (string * string)) (body : string) :
  (∀ p, p ∈ pre → p.1 ≠ "text/plain") →
  message (mkMime h (pre ++ ("text/plain", body) :: post))
  = message (mkMime h []) +:+ body
  ∧ message (mkMime h pre) = message (mkMime h [])
  ∧ message (mkMime h [])
    = "From: " +:+ str_of (h "From") +:+ newsArticle.CRLF
      +:+ "Newsgroups: " +:+ str_of (h "Newsgroups") +:+ newsArticle.CRLF
      +:+ "Subject: " +:+ str_of (h "Subject") +:+ newsArticle.CRLF
      +:+ "Date: " +:+ str_of (h "Date") +:+ newsArticle.CRLF.
Proof.
  intros Hpre. unfold message. simpl parts. split; [|split].
  - rewrite walk_plain_skip by done. reflexivity.
  - rewrite <- (app_nil_r pre). by rewrite walk_plain_skip.
  - simpl. by rewrite !append_assoc.
Qed.

Lemma message_first_plain_witness :
  message (mkMime (λ _, None)
             ([("multipart/alternative", ""); ("text/html", "<p>hi</p>")]
              ++ ("text/plain", "hi") :: [("text/plain", "again")]))
  = message (mkMime (λ _, None) []) +:+ "hi".
Proof.
  refine (proj1 (message_first_plain (λ _, None)
                   [("multipart/alternative", ""); ("text/html", "<p>hi</p>")]
                   [("text/plain", "again")] "hi" _)).
  intros p Hp.
  repeat (apply elem_of_cons in Hp as [->|Hp]; [discriminate|]).
  by apply elem_of_nil in Hp.
Defined.

(** ** The tags of the output text *)

Import Balance.















(** ** Rendering a parsed article again, and a reference in an href *)

(** C5 as stated fails for [parseMessage] itself: called on an article
    that is parsed, after the raw HTML was changed, it renders again,
    replaces the cached content and calls the mention manager a second
    time. *)
Lemma parseMessage_rerenders_counterexample :
  let getAsHtml :=
    newsArticle.getAsHtml Fixtures.emoji Fixtures.lex nat Fixtures.parseMentions in
  let parseMessage :=
    newsArticle.parseMessage Fixtures.emoji Fixtures.lex nat
      Fixtures.parseMentions in
  let w1 := (getAsHtml (Fixtures.world "+1" "hello")).2 in
  let w2 := newsArticle.mutate nat (newsArticle.set_raw_html nat "other") w1 in
  let w3 := (parseMessage w2).2 in
  is_Some (newsArticle.content nat (newsArticle.self nat w2))
  ∧ newsArticle.broken nat (newsArticle.self nat w2) = false
  ∧ parseMessage w2 ≠ (Return tt, w2)
  ∧ newsArticle.content nat (newsArticle.self nat w3)
    ≠ newsArticle.content nat (newsArticle.self nat w2)
  ∧ newsArticle.mention_manager nat (newsArticle.self nat w2) = 1%nat
  ∧ newsArticle.mention_manager nat (newsArticle.self nat w3) = 2%nat.
Proof.
  vm_compute. repeat split; (by eexists) || discriminate.
Qed.

(** C8 as stated fails for a reference inside an attribute value: of the
    two references of the text below the one in the content comes out as
    markup, the one in the href comes out decoded. *)
Lemma entityref_in_href_counterexample :
  entity_html = "<a href=" +:+ quoted "se&amp;cond" +:+ ">x &amp; y</a>"
  ∧ newsArticle.transcode Fixtures.emoji lex_entity entity_html
    = Return ("<a href=" +:+ quoted "se&cond" +:+ ">x &amp; y</a>").
Proof. vm_compute. by split. Qed.
